(** * Region matcher of the service-center locator

    A shallow embedding of the text-normalisation and flexible-matching code
    of the service-center API: the Express application whose source starts
    with the comment [// index.js] (the flexible matcher), and [src/index.js],
    the variant that matches by exact key only.  The properties of the
    specification are proved over the embedding.

    JavaScript strings are sequences of UTF-16 code units; [length],
    indexing, [===], [includes] and the regular expressions of the source
    (none has the [u] flag) all work on code units. *)

From Stdlib Require Import String Ascii.
From stdpp Require Import base numbers option list gmap.

Local Open Scope N_scope.

(** ** Strings *)

Abbreviation jsstring := (list N).

(** An ASCII literal of the source as a string of code units. *)
Definition js (s : string) : jsstring :=
  map N_of_ascii (list_ascii_of_string s).

(** ** Character classes of the regular expressions *)

(** [[\u0300-\u036f]]: the block of combining diacritical marks. *)
Definition is_mark (c : N) : bool := (0x300 <=? c) && (c <=? 0x36F).

(** [\s] without the [u] flag, which is also what [trim] strips:
    WhiteSpace and LineTerminator of ECMA-262. *)
Definition is_space (c : N) : bool :=
  ((0x09 <=? c) && (c <=? 0x0D)) || (c =? 0x20) || (c =? 0xA0)
  || (c =? 0x1680) || ((0x2000 <=? c) && (c <=? 0x200A))
  || (c =? 0x2028) || (c =? 0x2029) || (c =? 0x202F) || (c =? 0x205F)
  || (c =? 0x3000) || (c =? 0xFEFF).

(** [[a-z0-9]]. *)
Definition is_alnum (c : N) : bool :=
  ((0x61 <=? c) && (c <=? 0x7A)) || ((0x30 <=? c) && (c <=? 0x39)).

Definition SP : N := 0x20.

(** ** The string methods of the runtime

    [toLowerCase] and [normalize('NFD')] belong to the JavaScript runtime,
    not to the repository.  They are taken as an interface; the laws fix them
    on Latin-1 text, where both act one code unit at a time. *)

Definition is_latin1 (s : jsstring) : bool := forallb (fun c => c <? 0x100) s.

(** Simple lower-case mapping of UnicodeData for U+0000..U+00FF. *)
Definition lower_latin1 (c : N) : N :=
  if (0x41 <=? c) && (c <=? 0x5A) then c + 0x20
  else if (0xC0 <=? c) && (c <=? 0xDE) && negb (c =? 0xD7) then c + 0x20
  else c.

(** Canonical decomposition of UnicodeData for U+0000..U+00FF: a base letter
    and one combining mark, or the character itself. *)
Definition decompose_latin1 (c : N) : list N :=
  match c with
  | 0xC0 => [0x41; 0x300] | 0xC1 => [0x41; 0x301] | 0xC2 => [0x41; 0x302]
  | 0xC3 => [0x41; 0x303] | 0xC4 => [0x41; 0x308] | 0xC5 => [0x41; 0x30A]
  | 0xC7 => [0x43; 0x327]
  | 0xC8 => [0x45; 0x300] | 0xC9 => [0x45; 0x301] | 0xCA => [0x45; 0x302]
  | 0xCB => [0x45; 0x308]
  | 0xCC => [0x49; 0x300] | 0xCD => [0x49; 0x301] | 0xCE => [0x49; 0x302]
  | 0xCF => [0x49; 0x308]
  | 0xD1 => [0x4E; 0x303]
  | 0xD2 => [0x4F; 0x300] | 0xD3 => [0x4F; 0x301] | 0xD4 => [0x4F; 0x302]
  | 0xD5 => [0x4F; 0x303] | 0xD6 => [0x4F; 0x308]
  | 0xD9 => [0x55; 0x300] | 0xDA => [0x55; 0x301] | 0xDB => [0x55; 0x302]
  | 0xDC => [0x55; 0x308]
  | 0xDD => [0x59; 0x301]
  | 0xE0 => [0x61; 0x300] | 0xE1 => [0x61; 0x301] | 0xE2 => [0x61; 0x302]
  | 0xE3 => [0x61; 0x303] | 0xE4 => [0x61; 0x308] | 0xE5 => [0x61; 0x30A]
  | 0xE7 => [0x63; 0x327]
  | 0xE8 => [0x65; 0x300] | 0xE9 => [0x65; 0x301] | 0xEA => [0x65; 0x302]
  | 0xEB => [0x65; 0x308]
  | 0xEC => [0x69; 0x300] | 0xED => [0x69; 0x301] | 0xEE => [0x69; 0x302]
  | 0xEF => [0x69; 0x308]
  | 0xF1 => [0x6E; 0x303]
  | 0xF2 => [0x6F; 0x300] | 0xF3 => [0x6F; 0x301] | 0xF4 => [0x6F; 0x302]
  | 0xF5 => [0x6F; 0x303] | 0xF6 => [0x6F; 0x308]
  | 0xF9 => [0x75; 0x300] | 0xFA => [0x75; 0x301] | 0xFB => [0x75; 0x302]
  | 0xFC => [0x75; 0x308]
  | 0xFD => [0x79; 0x301] | 0xFF => [0x79; 0x308]
  | _ => [c]
  end.

Class Unicode := {
  toLowerCase : jsstring -> jsstring;
  nfd : jsstring -> jsstring;
  toLowerCase_latin1 :
    forall s, is_latin1 s = true -> toLowerCase s = map lower_latin1 s;
  nfd_latin1 :
    forall s, is_latin1 s = true -> nfd s = flat_map decompose_latin1 s
}.

(** *** A model of the runtime

    NFD is canonical decomposition followed by canonical ordering (UAX 15):
    inside a run of code units of non-zero combining class, a mark of higher
    class never stays before one of lower class.  The model knows the
    decompositions of Latin-1 and the combining classes below; it treats
    every other code unit as a starter with no decomposition and no case. *)

(** Canonical combining classes of UnicodeData: the marks that Latin-1
    letters decompose to (230, and 202 for the cedilla), and the Hebrew
    points U+05B0 sheva .. U+05B9 holam (10 .. 19; U+05B4 hiriq is 14 and
    U+05B7 patah is 17).  U+034F, the combining grapheme joiner, has class
    0 like every starter. *)
Definition ccc (c : N) : N :=
  if (0x5B0 <=? c) && (c <=? 0x5B9) then c - 0x5B0 + 10
  else match c with
       | 0x300 | 0x301 | 0x302 | 0x303 | 0x308 | 0x30A => 230
       | 0x327 => 202
       | _ => 0
       end.

(** [c] in front of text already in canonical order: it moves behind the
    marks of lower class that follow it. *)
Fixpoint place (c : N) (s : jsstring) : jsstring :=
  match s with
  | d :: s' =>
      if (0 <? ccc d) && (ccc d <? ccc c) then d :: place c s' else c :: s
  | [] => [c]
  end.

Fixpoint canonical_order (s : jsstring) : jsstring :=
  match s with
  | [] => []
  | c :: s' => place c (canonical_order s')
  end.

Definition model_toLowerCase (s : jsstring) : jsstring := map lower_latin1 s.

Definition model_nfd (s : jsstring) : jsstring :=
  canonical_order (flat_map decompose_latin1 s).

(** ** Utils *)

(** [.replace(/[\u0300-\u036f]/g, '')] *)
Definition strip_marks (s : jsstring) : jsstring :=
  List.filter (fun c => negb (is_mark c)) s.

(** [.replace(/[^a-z0-9\s]/g, ' ')] *)
Definition replace_symbols (s : jsstring) : jsstring :=
  map (fun c => if is_alnum c || is_space c then c else SP) s.

(** [.replace(/\s+/g, ' ')]: every maximal run of white space becomes one
    space.  [in_run] tells that the previous code unit was white space. *)
Fixpoint collapse_from (in_run : bool) (s : jsstring) : jsstring :=
  match s with
  | [] => []
  | c :: s' =>
      if is_space c
      then (if in_run then collapse_from true s' else SP :: collapse_from true s')
      else c :: collapse_from false s'
  end.

Definition collapse_spaces (s : jsstring) : jsstring := collapse_from false s.

(** [.trim()] *)
Fixpoint trimStart (s : jsstring) : jsstring :=
  match s with
  | [] => []
  | c :: s' => if is_space c then trimStart s' else s
  end.

Fixpoint trimEnd (s : jsstring) : jsstring :=
  match s with
  | [] => []
  | c :: s' =>
      match trimEnd s' with
      | [] => if is_space c then [] else [c]
      | r => c :: r
      end
  end.

Definition trim (s : jsstring) : jsstring := trimEnd (trimStart s).

(** [normalize] of the flexible matcher.  On a string, [String(str)] and
    the default value of the parameter change nothing. *)
Definition normalize `{Unicode} (str : jsstring) : jsstring :=
  trim (collapse_spaces (replace_symbols (strip_marks (nfd (toLowerCase str))))).

(** [normalize] of [src/index.js], the variant of the application that
    matches by exact key only: lower case, NFD, accents removed, trimmed. *)
Module Basic.

Definition normalize `{Unicode} (str : jsstring) : jsstring :=
  trim (strip_marks (nfd (toLowerCase str))).

End Basic.

(** *** Control flow of the source *)

(** [for (let i = lo; i <= hi; i++) body] over a loop state. *)
Definition for_loop {St : Type} (lo hi : nat) (body : nat -> St -> St) (s : St)
  : St :=
  fold_left (fun s i => body i s) (seq lo (S hi - lo)) s.

(** A call either returns a value or throws a [TypeError]. *)
Inductive completion (A : Type) : Type :=
  | Normal (v : A)
  | ThrowTypeError.
Arguments Normal {A} v.
Arguments ThrowTypeError {A}.

#[export] Instance completion_bind : MBind completion :=
  fun A B f c => match c with Normal v => f v | ThrowTypeError => ThrowTypeError end.

Definition returns_true (c : completion bool) : bool :=
  match c with Normal b => b | ThrowTypeError => false end.

(** [Array.prototype.find] with a callback that may throw. *)
Fixpoint find_c {A : Type} (p : A -> completion bool) (l : list A)
  : completion (option A) :=
  match l with
  | [] => Normal None
  | x :: l' =>
      match p x with
      | Normal true => Normal (Some x)
      | Normal false => find_c p l'
      | ThrowTypeError => ThrowTypeError
      end
  end.

(** *** Levenshtein distance *)

(** The table [dp]: an array of rows, each row an array of its own. *)
Abbreviation table := (list (list nat)).

(** [Array.from({ length: m + 1 }, () => new Array(n + 1).fill(0))] *)
Definition new_table (m n : nat) : table :=
  replicate (m + 1)%nat (replicate (n + 1)%nat 0%nat).

(** [dp[i][j]] read.  The source only reads cells of the table. *)
Definition cell (dp : table) (i j : nat) : nat :=
  default 0%nat (row ← dp !! i; row !! j).

(** [dp[i][j] = v].  The source only writes cells of the table. *)
Definition set_cell (dp : table) (i j v : nat) : table :=
  alter (fun row => <[j := v]> row) i dp.

(** [Math.min] of three numbers. *)
Definition min3 (x y z : nat) : nat := Nat.min x (Nat.min y z).

(** [a[i - 1] === b[j - 1] ? 0 : 1] *)
Definition subst_cost (a b : jsstring) (i j : nat) : nat :=
  if bool_decide (a !! (i - 1)%nat = b !! (j - 1)%nat) then 0%nat else 1%nat.

(** The three loops of [levenshtein] over the strings already normalized. *)
Definition fill_table (a b : jsstring) : table :=
  let m := length a in
  let n := length b in
  let dp := new_table m n in
  let dp := for_loop 0 m (fun i dp => set_cell dp i 0 i) dp in
  let dp := for_loop 0 n (fun j dp => set_cell dp 0 j j) dp in
  for_loop 1 m (fun i dp =>
    for_loop 1 n (fun j dp =>
      let cost := subst_cost a b i j in
      set_cell dp i j
        (min3 (cell dp (i - 1) j + 1)
              (cell dp i (j - 1) + 1)
              (cell dp (i - 1) (j - 1) + cost))%nat) dp) dp.

Definition levenshtein `{Unicode} (a b : jsstring) : nat :=
  let a := normalize a in
  let b := normalize b in
  let m := length a in
  let n := length b in
  if (m =? 0)%nat then n
  else if (n =? 0)%nat then m
  else cell (fill_table a b) m n.

(** The recurrence the table implements, on the prefixes of length [i] and
    [j]: the reference the loops are checked against. *)
Fixpoint lev (a b : jsstring) (i : nat) {struct i} : nat -> nat :=
  match i with
  | O => fun j => j
  | S i' =>
      fix lev_row (j : nat) : nat :=
        match j with
        | O => S i'
        | S j' =>
            min3 (lev a b i' (S j') + 1)
                 (lev_row j' + 1)
                 (lev a b i' j' + subst_cost a b (S i') (S j'))%nat
        end
  end.

(** *** [String.prototype.includes] *)

Fixpoint startsWith (s t : jsstring) {struct t} : bool :=
  match t, s with
  | [], _ => true
  | _ :: _, [] => false
  | x :: t', y :: s' => (x =? y) && startsWith s' t'
  end.

Fixpoint includes (s t : jsstring) : bool :=
  startsWith s t ||
  match s with
  | [] => false
  | _ :: s' => includes s' t
  end.

(** ** Data *)

Record ServiceCenter := {
  region : jsstring;
  name : jsstring;
  address : jsstring;
  products : jsstring;
  image : jsstring
}.

#[export] Instance ServiceCenter_eq_dec : EqDecision ServiceCenter.
Proof. solve_decision. Defined.

(** U+00F3 and U+00ED, the precomposed accented letters of the source text
    and of the specification's examples. *)
Definition o_acute : N := 0xF3.
Definition i_acute : N := 0xED.

Definition SAMTEK : ServiceCenter := {|
  region := js "Regi" ++ [o_acute] ++ js "n Metropolitana de Santiago";
  name := js "SAMTEK";
  address := js "Nueva Tajamar 481, Torre Sur, Oficina 1601. Las Condes";
  products := js "Notebook, Desktop PC, All-in-one PCs, Eee Pad, Eee";
  image := js "samtek.png"
|}.

Definition serviceCenters : list ServiceCenter := [SAMTEK].

(** Lamed, patah, combining grapheme joiner, hiriq: marked Hebrew text in
    which the joiner keeps the two points in the order written. *)
Definition lamed_patah_cgj_hiriq : jsstring := [0x5DC; 0x5B7; 0x34F; 0x5B4].

(** The aliases listed in the source. *)
Definition SAMTEK_aliases : list jsstring :=
  [ js "region metropolitana de santiago";
    js "rm";
    js "metropolitana";
    js "santiago";
    js "region metropolita na de santiago";
    js "region metropolotana de santiago";
    js "region metropolitana";
    js "metropolitana de santiago" ].

(** [REGION_ALIASES] has one own property; its name is written with the
    accent in the source. *)
Definition REGION_ALIASES : gmap (list N) (list (list N)) :=
  {[ js "regi" ++ [o_acute] ++ js "n metropolitana de santiago" :=
       SAMTEK_aliases ]}.

Definition REGION_KEYS `{Unicode} : list jsstring :=
  map (fun sc => normalize (region sc)) serviceCenters.

(** What [REGION_ALIASES[key]] evaluates to: an alias array of the object
    itself, or a member that the object literal inherits from
    [Object.prototype] (a function, or the prototype for [__proto__]). *)
Inductive property : Type :=
  | AliasArray (l : list jsstring)
  | Inherited.

Definition Object_prototype_names : list jsstring :=
  map js [ "constructor"; "hasOwnProperty"; "isPrototypeOf";
           "propertyIsEnumerable"; "toLocaleString"; "toString"; "valueOf";
           "__proto__"; "__defineGetter__"; "__defineSetter__";
           "__lookupGetter__"; "__lookupSetter__" ]%string.

Definition get_REGION_ALIASES (key : jsstring) : option property :=
  match REGION_ALIASES !! key with
  | Some l => Some (AliasArray l)
  | None =>
      if bool_decide (key ∈ Object_prototype_names) then Some Inherited
      else None
  end.

(** [aliases.some(f)]: defined on arrays only; on an inherited member
    [aliases.some] is [undefined] and the call throws. *)
Definition some (aliases : property) (f : jsstring -> bool) : completion bool :=
  match aliases with
  | AliasArray l => Normal (existsb f l)
  | Inherited => ThrowTypeError
  end.

(** ** Matching *)

Definition isAliasMatch `{Unicode} (input regionName : jsstring) : completion bool :=
  let key := normalize regionName in
  let inputN := normalize input in
  (* every value found is truthy, so [|| []] only replaces [undefined] *)
  let aliases := default (AliasArray []) (get_REGION_ALIASES key) in
  if bool_decide (inputN = key) then Normal true else
  hit ← some aliases (fun a => bool_decide (normalize a = inputN));
  if (hit : bool) then Normal true else
  if (6 <=? length inputN)%nat && (includes key inputN || includes inputN key)
  then Normal true else
  if (levenshtein inputN key <=? 2)%nat then Normal true else
  hit ← some aliases (fun a => (levenshtein inputN a <=? 2)%nat);
  if (hit : bool) then Normal true else
  Normal false.

Definition findByRegionFlexible `{Unicode} (input : jsstring)
  : completion (option ServiceCenter) :=
  (* 1) exact normalized match *)
  match find (fun sc => bool_decide (normalize (region sc) = normalize input))
             serviceCenters with
  | Some sc => Normal (Some sc)
  | None =>
      (* 2) alias/partial/fuzzy; [match || null] *)
      find_c (fun sc => isAliasMatch input (region sc)) serviceCenters
  end.

(** Lines 104-111 with the catalog as an argument instead of the constant
    [serviceCenters]: strategy 1 runs over the whole catalog before
    [isAliasMatch] is called on any entry. *)
Definition findByRegionFlexible_on `{Unicode} (catalog : list ServiceCenter)
    (input : jsstring) : completion (option ServiceCenter) :=
  (* 1) exact normalized match *)
  match find (fun sc => bool_decide (normalize (region sc) = normalize input))
             catalog with
  | Some sc => Normal (Some sc)
  | None =>
      (* 2) alias/partial/fuzzy; [match || null] *)
      find_c (fun sc => isAliasMatch input (region sc)) catalog
  end.

(** ** Strategies, as predicates on a catalog entry *)

(** Strategy 1 of [findByRegionFlexible]. *)
Definition exact_match `{Unicode} (input : jsstring) (sc : ServiceCenter) : bool :=
  bool_decide (normalize (region sc) = normalize input).

(** An entry qualifies when strategy 1 or [isAliasMatch] accepts it. *)
Definition qualifies `{Unicode} (input : jsstring) (sc : ServiceCenter) : bool :=
  exact_match input sc || returns_true (isAliasMatch input (region sc)).

(** The substring clause of [isAliasMatch] taken alone, and the others. *)
Definition substring_match `{Unicode} (input regionName : jsstring) : bool :=
  includes (normalize regionName) (normalize input)
  || includes (normalize input) (normalize regionName).

Definition fuzzy_match `{Unicode} (input regionName : jsstring) : bool :=
  (levenshtein (normalize input) (normalize regionName) <=? 2)%nat.

(** [isAliasMatch] and [findByRegionFlexible] with the two checks on
    [aliases] deleted, everything else as in the source. *)
Definition isAliasMatch_without_alias_checks `{Unicode}
    (input regionName : jsstring) : completion bool :=
  let key := normalize regionName in
  let inputN := normalize input in
  if bool_decide (inputN = key) then Normal true else
  if (6 <=? length inputN)%nat && (includes key inputN || includes inputN key)
  then Normal true else
  if (levenshtein inputN key <=? 2)%nat then Normal true else
  Normal false.

Definition findByRegionFlexible_without_alias_checks `{Unicode}
    (input : jsstring) : completion (option ServiceCenter) :=
  match find (fun sc => bool_decide (normalize (region sc) = normalize input))
             serviceCenters with
  | Some sc => Normal (Some sc)
  | None =>
      find_c (fun sc => isAliasMatch_without_alias_checks input (region sc))
             serviceCenters
  end.

(** The shape of a canonical key: letters, digits and single spaces, with
    no space at either end. *)
Definition is_plain (c : N) : bool := is_alnum c || (c =? SP).

Fixpoint single_spaced (after_space : bool) (s : jsstring) : bool :=
  match s with
  | [] => true
  | c :: s' =>
      if is_space c
      then (c =? SP) && negb after_space && single_spaced true s'
      else single_spaced false s'
  end.

Definition canonical (s : jsstring) : bool :=
  forallb is_plain s && single_spaced false s && bool_decide (trim s = s).

(** ** Invariants of the proofs *)

(** What the steps of [normalize] do to a letter, a digit or a space. *)
Definition plain_fixed (c : N) : bool :=
  implb (is_plain c)
    (bool_decide (lower_latin1 c = c) && bool_decide (decompose_latin1 c = [c])
     && negb (is_mark c) && (is_alnum c || is_space c)
     && implb (is_space c) (c =? SP)).

(** A code unit that the steps of [Basic.normalize] leave alone. *)
Definition settled (d : N) : bool :=
  (d <? 0x100) && bool_decide (lower_latin1 d = d)
  && bool_decide (decompose_latin1 d = [d]) && negb (is_mark d).

(** Text in which no mark stands before a mark of lower class, and text
    that starts with a starter. *)
Fixpoint ordered (s : jsstring) : bool :=
  match s with
  | c :: (d :: _) as s' => negb ((0 <? ccc d) && (ccc d <? ccc c)) && ordered s'
  | _ => true
  end.

Definition starts_calm (s : jsstring) : bool :=
  match s with
  | [] => true
  | d :: _ => ccc d =? 0
  end.

(** A Latin-1 letter decomposes to a starter, or a starter and a mark. *)
Definition decomposes_calm (c : N) : bool :=
  match decompose_latin1 c with
  | [x] => ccc x =? 0
  | [x; y] => ccc x =? 0
  | _ => false
  end.

(** The table has [m + 1] rows of [n + 1] cells. *)
Definition shaped (m n : nat) (dp : table) : Prop :=
  length dp = S m /\ forall i row, dp !! i = Some row -> length row = S n.

(** Loop invariant of [fill_table]: row 0, column 0, the rows above [i]
    and the cells of row [i] left of [j] hold the recurrence. *)
Definition filled (a b : jsstring) (i j : nat) (dp : table) : Prop :=
  shaped (length a) (length b) dp /\
  forall i' j', (i' <= length a)%nat -> (j' <= length b)%nat ->
    i' = 0%nat \/ j' = 0%nat \/ (i' < i)%nat \/ (i' = i /\ (j' < j)%nat) ->
    cell dp i' j' = lev a b i' j'.

(** * Properties *)

(** ** Code units *)

Lemma forall_below (P : N -> bool) (n : nat) :
  forallb P (map N.of_nat (seq 0 n)) = true ->
  forall c, c < N.of_nat n -> P c = true.
Proof.
  intros HP c Hc. rewrite forallb_forall in HP. apply HP.
  apply in_map_iff. exists (N.to_nat c). split; [lia|].
  apply in_seq. lia.
Qed.

Lemma is_plain_latin1 c : is_plain c = true -> c < 0x100.
Proof.
  unfold is_plain, is_alnum, SP.
  rewrite !orb_true_iff, !andb_true_iff, !N.leb_le, N.eqb_eq. lia.
Qed.

Lemma plain_fixed_all c : is_plain c = true -> plain_fixed c = true.
Proof.
  intros Hc. apply (forall_below plain_fixed 256).
  - vm_compute. reflexivity.
  - apply is_plain_latin1, Hc.
Qed.

Lemma plain_facts c :
  is_plain c = true ->
  lower_latin1 c = c /\ decompose_latin1 c = [c] /\ is_mark c = false
  /\ is_alnum c || is_space c = true /\ (is_space c = true -> c = SP).
Proof.
  intros Hc. pose proof (plain_fixed_all c Hc) as H.
  unfold plain_fixed in H. rewrite Hc in H. simpl in H.
  rewrite !andb_true_iff, !bool_decide_eq_true, negb_true_iff in H.
  destruct H as [[[[H1 H2] H3] H4] H5]. repeat split; try assumption.
  intros Hs. rewrite Hs in H5. simpl in H5. apply N.eqb_eq, H5.
Qed.

Lemma lower_latin1_bound c : c < 0x100 -> lower_latin1 c < 0x100.
Proof.
  intros Hc.
  pose proof (forall_below (fun c => lower_latin1 c <? 0x100) 256 eq_refl c Hc) as H.
  apply N.ltb_lt, H.
Qed.

(** ** The steps of [normalize] on canonical text *)

Lemma plain_is_latin1 s : forallb is_plain s = true -> is_latin1 s = true.
Proof.
  unfold is_latin1. rewrite !forallb_forall. intros H c Hc.
  apply N.ltb_lt, is_plain_latin1, H, Hc.
Qed.

Lemma map_lower_plain s : forallb is_plain s = true -> map lower_latin1 s = s.
Proof.
  induction s as [|c s IH]; simpl; [reflexivity|].
  rewrite andb_true_iff. intros [Hc Hs].
  destruct (plain_facts c Hc) as (-> & _). f_equal. apply IH, Hs.
Qed.

Lemma decompose_plain s :
  forallb is_plain s = true -> flat_map decompose_latin1 s = s.
Proof.
  induction s as [|c s IH]; simpl; [reflexivity|].
  rewrite andb_true_iff. intros [Hc Hs].
  destruct (plain_facts c Hc) as (_ & -> & _). simpl. f_equal. apply IH, Hs.
Qed.

Lemma strip_marks_plain s : forallb is_plain s = true -> strip_marks s = s.
Proof.
  induction s as [|c s IH]; simpl; [reflexivity|].
  rewrite andb_true_iff. intros [Hc Hs].
  destruct (plain_facts c Hc) as (_ & _ & -> & _). simpl. f_equal. apply IH, Hs.
Qed.

Lemma replace_symbols_plain s :
  forallb is_plain s = true -> replace_symbols s = s.
Proof.
  induction s as [|c s IH]; simpl; [reflexivity|].
  rewrite andb_true_iff. intros [Hc Hs].
  destruct (plain_facts c Hc) as (_ & _ & _ & -> & _). f_equal. apply IH, Hs.
Qed.

Lemma collapse_single_spaced b s :
  single_spaced b s = true -> collapse_from b s = s.
Proof.
  revert b. induction s as [|c s IH]; intros b; simpl; [reflexivity|].
  destruct (is_space c).
  - rewrite !andb_true_iff, negb_true_iff, N.eqb_eq.
    intros [[-> ->] Hs]. f_equal. apply IH, Hs.
  - intros Hs. f_equal. apply IH, Hs.
Qed.

(** ** What each step establishes *)

Lemma replace_symbols_chars s :
  forallb (fun c => is_alnum c || is_space c) (replace_symbols s) = true.
Proof.
  induction s as [|c s IH]; simpl; [reflexivity|].
  rewrite IH, andb_true_r.
  destruct (is_alnum c || is_space c) eqn:E; [exact E | reflexivity].
Qed.

Lemma collapse_plain b s :
  forallb (fun c => is_alnum c || is_space c) s = true ->
  forallb is_plain (collapse_from b s) = true.
Proof.
  revert b. induction s as [|c s IH]; intros b; simpl; [reflexivity|].
  rewrite andb_true_iff. intros [Hc Hs].
  destruct (is_space c) eqn:E.
  - destruct b; simpl; auto.
  - simpl. rewrite IH by assumption. rewrite orb_false_r in Hc.
    unfold is_plain. rewrite Hc. reflexivity.
Qed.

Lemma collapse_is_single_spaced b s :
  single_spaced b (collapse_from b s) = true.
Proof.
  revert b. induction s as [|c s IH]; intros b; simpl; [reflexivity|].
  destruct (is_space c) eqn:E.
  - destruct b; [apply IH|]. simpl. apply IH.
  - simpl. rewrite E. apply IH.
Qed.

Lemma single_spaced_weaken s :
  single_spaced true s = true -> single_spaced false s = true.
Proof.
  destruct s as [|c s]; simpl; [reflexivity|].
  destruct (is_space c); [|auto].
  rewrite andb_false_r. discriminate.
Qed.

Lemma trimStart_forallb (P : N -> bool) s :
  forallb P s = true -> forallb P (trimStart s) = true.
Proof.
  induction s as [|c s IH]; simpl; [reflexivity|].
  rewrite andb_true_iff. intros [Hc Hs].
  destruct (is_space c); [auto|]. simpl. rewrite Hc, Hs. reflexivity.
Qed.

Lemma trimEnd_forallb (P : N -> bool) s :
  forallb P s = true -> forallb P (trimEnd s) = true.
Proof.
  induction s as [|c s IH]; simpl; [reflexivity|].
  rewrite andb_true_iff. intros [Hc Hs]. specialize (IH Hs).
  destruct (trimEnd s) as [|d r].
  - destruct (is_space c); simpl; [reflexivity|]. rewrite Hc. reflexivity.
  - change (forallb P (c :: d :: r)) with (P c && forallb P (d :: r)).
    rewrite Hc, IH. reflexivity.
Qed.

Lemma trimStart_single_spaced s :
  single_spaced false s = true -> single_spaced false (trimStart s) = true.
Proof.
  induction s as [|c s IH]; simpl; [reflexivity|].
  destruct (is_space c) eqn:E.
  - rewrite !andb_true_iff. intros [_ Hs]. apply IH, single_spaced_weaken, Hs.
  - intros Hs. simpl. rewrite E. exact Hs.
Qed.

Lemma trimEnd_single_spaced b s :
  single_spaced b s = true -> single_spaced b (trimEnd s) = true.
Proof.
  revert b. induction s as [|c s IH]; intros b; simpl; [reflexivity|].
  destruct (is_space c) eqn:E.
  - rewrite !andb_true_iff. intros [[Hc Hb] Hs]. specialize (IH true Hs).
    destruct (trimEnd s) as [|d r]; [reflexivity|].
    change (single_spaced b (c :: d :: r))
      with (if is_space c
            then (c =? SP) && negb b && single_spaced true (d :: r)
            else single_spaced false (d :: r)).
    rewrite E, Hc, Hb, IH. reflexivity.
  - intros Hs. specialize (IH false Hs).
    destruct (trimEnd s) as [|d r]; [simpl; rewrite E; reflexivity|].
    change (single_spaced b (c :: d :: r))
      with (if is_space c
            then (c =? SP) && negb b && single_spaced true (d :: r)
            else single_spaced false (d :: r)).
    rewrite E. exact IH.
Qed.

Lemma trimStart_head s :
  match trimStart s with [] => True | c :: _ => is_space c = false end.
Proof.
  induction s as [|c s IH]; simpl; [exact I|].
  destruct (is_space c) eqn:E; [exact IH | exact E].
Qed.

Lemma trimStart_fixed s :
  match s with [] => True | c :: _ => is_space c = false end ->
  trimStart s = s.
Proof. destruct s as [|c s]; simpl; [reflexivity|]. intros ->. reflexivity. Qed.

Lemma trimEnd_head s :
  match s with [] => True | c :: _ => is_space c = false end ->
  match trimEnd s with [] => True | c :: _ => is_space c = false end.
Proof.
  destruct s as [|c s]; simpl; [auto|]. intros E.
  destruct (trimEnd s); [rewrite E|]; exact E.
Qed.

Lemma trimEnd_idempotent s : trimEnd (trimEnd s) = trimEnd s.
Proof.
  induction s as [|c s IH]; simpl; [reflexivity|].
  destruct (trimEnd s) as [|d r] eqn:Er.
  - destruct (is_space c) eqn:E; simpl; [reflexivity|]. rewrite E. reflexivity.
  - change (trimEnd (c :: d :: r))
      with (match trimEnd (d :: r) with
            | [] => if is_space c then [] else [c]
            | x :: r' => c :: x :: r'
            end).
    rewrite IH. reflexivity.
Qed.

Lemma trimStart_snoc s c :
  trimStart (s ++ [c]) =
  match trimStart s with
  | [] => if is_space c then [] else [c]
  | r => r ++ [c]
  end.
Proof.
  induction s as [|d s IH]; simpl; [destruct (is_space c); reflexivity|].
  destruct (is_space d); [exact IH | reflexivity].
Qed.

(** [trimEnd] removes at the end what [trimStart] removes at the start. *)
Lemma trimEnd_rev s : trimEnd s = rev (trimStart (rev s)).
Proof.
  induction s as [|c s IH]; [reflexivity|].
  cbn [trimEnd rev]. rewrite trimStart_snoc, IH.
  destruct (trimStart (rev s)) as [|x r]; simpl.
  - destruct (is_space c); reflexivity.
  - rewrite rev_app_distr. simpl.
    destruct (rev r ++ [x]) eqn:E; [|reflexivity].
    destruct (rev r); discriminate.
Qed.

Lemma trim_idempotent s : trim (trim s) = trim s.
Proof.
  unfold trim.
  rewrite (trimStart_fixed (trimEnd (trimStart s))).
  - apply trimEnd_idempotent.
  - apply trimEnd_head, trimStart_head.
Qed.

Lemma trim_forallb (P : N -> bool) s :
  forallb P s = true -> forallb P (trim s) = true.
Proof. intros H. apply trimEnd_forallb, trimStart_forallb, H. Qed.

Lemma trim_single_spaced s :
  single_spaced false s = true -> single_spaced false (trim s) = true.
Proof. intros H. apply trimEnd_single_spaced, trimStart_single_spaced, H. Qed.

(** ** The model of the runtime satisfies the laws *)

Lemma place_ordered c s : ordered (c :: s) = true -> place c s = c :: s.
Proof.
  destruct s as [|d s]; [reflexivity|]. cbn [ordered place].
  rewrite andb_true_iff, negb_true_iff. intros [-> _]. reflexivity.
Qed.

Lemma canonical_order_ordered s : ordered s = true -> canonical_order s = s.
Proof.
  induction s as [|c s IH]; [reflexivity|]. intros Hs. cbn [canonical_order].
  rewrite IH; [apply place_ordered, Hs|].
  destruct s; [reflexivity|]. cbn [ordered] in Hs.
  apply andb_true_iff in Hs. apply Hs.
Qed.

Lemma decompose_latin1_calm c : c < 0x100 -> decomposes_calm c = true.
Proof. apply (forall_below decomposes_calm 256). vm_compute. reflexivity. Qed.

Lemma decomposed_ordered s :
  is_latin1 s = true ->
  ordered (flat_map decompose_latin1 s) = true
  /\ starts_calm (flat_map decompose_latin1 s) = true.
Proof.
  unfold is_latin1. induction s as [|c s IH]; [split; reflexivity|].
  cbn [forallb flat_map]. rewrite andb_true_iff, N.ltb_lt. intros [Hc Hs].
  destruct (IH Hs) as [Ho Hcalm]. pose proof (decompose_latin1_calm c Hc) as Hd.
  unfold decomposes_calm in Hd.
  assert (Hhead : forall y, ordered (y :: flat_map decompose_latin1 s) = true).
  { intros y. destruct (flat_map decompose_latin1 s) as [|d r]; [reflexivity|].
    change (negb ((0 <? ccc d) && (ccc d <? ccc y)) && ordered (d :: r) = true).
    cbn [starts_calm] in Hcalm. apply N.eqb_eq in Hcalm.
    rewrite Hcalm, Ho. reflexivity. }
  destruct (decompose_latin1 c) as [|x [|y [|z r]]]; try discriminate.
  - split; [apply Hhead | exact Hd].
  - split; [|exact Hd]. apply N.eqb_eq in Hd.
    change (negb ((0 <? ccc y) && (ccc y <? ccc x))
            && ordered (y :: flat_map decompose_latin1 s) = true).
    rewrite Hd, Hhead.
    replace (ccc y <? 0) with false by (symmetry; apply N.ltb_ge; lia).
    rewrite andb_false_r. reflexivity.
Qed.

Lemma model_nfd_latin1 s :
  is_latin1 s = true -> model_nfd s = flat_map decompose_latin1 s.
Proof.
  intros Hs. apply canonical_order_ordered, decomposed_ordered, Hs.
Qed.

#[export] Instance runtime_model : Unicode := {|
  toLowerCase := model_toLowerCase;
  nfd := model_nfd;
  toLowerCase_latin1 := fun s _ => eq_refl;
  nfd_latin1 := model_nfd_latin1
|}.

(** ** [normalize] *)

Section Normalize.
Context `{U : Unicode}.

Lemma lower_keeps_latin1 s :
  is_latin1 s = true -> is_latin1 (map lower_latin1 s) = true.
Proof.
  unfold is_latin1. induction s as [|c s IH]; simpl; [reflexivity|].
  rewrite !andb_true_iff, !N.ltb_lt. intros [Hc Hs].
  split; [apply lower_latin1_bound, Hc | apply IH, Hs].
Qed.

(** On Latin-1 text the laws determine [normalize]. *)
Lemma normalize_on_latin1 s :
  is_latin1 s = true ->
  normalize s =
  trim (collapse_spaces (replace_symbols (strip_marks
    (flat_map decompose_latin1 (map lower_latin1 s))))).
Proof.
  intros Hs. unfold normalize.
  rewrite (toLowerCase_latin1 s Hs).
  rewrite (nfd_latin1 _ (lower_keeps_latin1 s Hs)). reflexivity.
Qed.

Lemma normalize_canonical s : canonical (normalize s) = true.
Proof.
  unfold canonical, normalize.
  set (t := replace_symbols _).
  rewrite trim_forallb
    by (apply collapse_plain, replace_symbols_chars).
  rewrite trim_single_spaced by apply collapse_is_single_spaced.
  rewrite trim_idempotent, bool_decide_eq_true_2 by reflexivity.
  reflexivity.
Qed.

Lemma normalize_fixed s : canonical s = true -> normalize s = s.
Proof.
  unfold canonical. rewrite !andb_true_iff, bool_decide_eq_true.
  intros [[Hp Hss] Ht]. unfold normalize.
  rewrite (toLowerCase_latin1 s (plain_is_latin1 s Hp)), (map_lower_plain s Hp).
  rewrite (nfd_latin1 s (plain_is_latin1 s Hp)), (decompose_plain s Hp).
  rewrite (strip_marks_plain s Hp), (replace_symbols_plain s Hp).
  unfold collapse_spaces. rewrite (collapse_single_spaced _ s Hss). exact Ht.
Qed.

Lemma normalize_nil : normalize [] = [].
Proof. apply normalize_fixed. reflexivity. Qed.

End Normalize.

(** On Latin-1 text every runtime agrees with [runtime_model]. *)
Lemma normalize_latin1 `{U : Unicode} s :
  is_latin1 s = true -> normalize s = @normalize runtime_model s.
Proof.
  intros Hs.
  rewrite (normalize_on_latin1 s Hs), (@normalize_on_latin1 runtime_model s Hs).
  reflexivity.
Qed.

(** ** [normalize] of [src/index.js] *)

Module BasicFacts.

Lemma settled_after_steps c :
  c < 0x100 ->
  forallb settled (strip_marks (decompose_latin1 (lower_latin1 c))) = true.
Proof.
  apply (forall_below
    (fun c => forallb settled (strip_marks (decompose_latin1 (lower_latin1 c))))
    256).
  vm_compute. reflexivity.
Qed.

Lemma strip_marks_app s t : strip_marks (s ++ t) = strip_marks s ++ strip_marks t.
Proof. unfold strip_marks. apply List.filter_app. Qed.

Lemma steps_settled s :
  is_latin1 s = true ->
  forallb settled (strip_marks (flat_map decompose_latin1 (map lower_latin1 s))) = true.
Proof.
  unfold is_latin1. induction s as [|c s IH]; simpl; [reflexivity|].
  rewrite andb_true_iff, N.ltb_lt. intros [Hc Hs].
  rewrite strip_marks_app, forallb_app, (settled_after_steps c Hc). simpl.
  apply IH, Hs.
Qed.

Lemma settled_fixed s :
  forallb settled s = true ->
  is_latin1 s = true /\ map lower_latin1 s = s
  /\ flat_map decompose_latin1 s = s /\ strip_marks s = s.
Proof.
  induction s as [|c s IH]; simpl; [repeat split; reflexivity|].
  rewrite andb_true_iff. intros [Hc Hs].
  destruct (IH Hs) as (IH1 & IH2 & IH3 & IH4).
  unfold settled in Hc.
  rewrite !andb_true_iff, !bool_decide_eq_true in Hc.
  destruct Hc as [[[Hlt Hlow] Hdec] Hmark].
  rewrite Hlt, IH1, Hlow, IH2, Hdec, Hmark. simpl. rewrite IH3, IH4.
  repeat split; reflexivity.
Qed.

Section Laws.
Context `{U : Unicode}.

(** Punctuation and inner white space are kept. *)
Lemma normalize_keeps_punctuation :
  Basic.normalize (js "Santiago, Chile!") = js "santiago, chile!".
Proof.
  unfold Basic.normalize.
  rewrite toLowerCase_latin1 by reflexivity.
  rewrite nfd_latin1 by reflexivity.
  vm_compute. reflexivity.
Qed.

(** On Latin-1 text the function is idempotent. *)
Lemma normalize_idempotent_latin1 s :
  is_latin1 s = true ->
  Basic.normalize (Basic.normalize s) = Basic.normalize s.
Proof.
  intros Hs. unfold Basic.normalize at 2 3.
  rewrite (toLowerCase_latin1 s Hs), (nfd_latin1 _ (lower_keeps_latin1 s Hs)).
  pose proof (trim_forallb settled _ (steps_settled s Hs)) as Ht.
  destruct (settled_fixed _ Ht) as (H1 & H2 & H3 & H4).
  unfold Basic.normalize.
  rewrite (toLowerCase_latin1 _ H1), H2, (nfd_latin1 _ H1), H3, H4.
  apply trim_idempotent.
Qed.

End Laws.
End BasicFacts.

(** ** Loops and the table *)

Section Table.
Local Open Scope nat_scope.

Lemma fold_seq_invariant {St : Type} (P : nat -> St -> Prop)
    (body : nat -> St -> St) k :
  forall lo s,
    P lo s ->
    (forall i t, lo <= i < lo + k -> P i t -> P (S i) (body i t)) ->
    P (lo + k) (fold_left (fun t i => body i t) (seq lo k) s).
Proof.
  induction k as [|k IH]; intros lo s Hs Hstep; simpl.
  - rewrite Nat.add_0_r. exact Hs.
  - replace (lo + S k) with (S lo + k) by lia. apply IH.
    + apply Hstep; [lia | exact Hs].
    + intros i t Hi. apply Hstep. lia.
Qed.

(** The rule of a counting loop: [P lo] on entry, preserved by the body,
    gives [P (hi + 1)] on exit. *)
Lemma for_loop_invariant {St : Type} (P : nat -> St -> Prop) lo hi
    (body : nat -> St -> St) s :
  lo <= S hi ->
  P lo s ->
  (forall i t, lo <= i <= hi -> P i t -> P (S i) (body i t)) ->
  P (S hi) (for_loop lo hi body s).
Proof.
  intros Hlo Hs Hstep. unfold for_loop.
  replace (S hi) with (lo + (S hi - lo)) at 1 by lia.
  apply fold_seq_invariant; [exact Hs|].
  intros i t Hi. apply Hstep. lia.
Qed.

Lemma shaped_new m n : shaped m n (new_table m n).
Proof.
  unfold new_table. split.
  - rewrite length_replicate. lia.
  - intros i row Hrow. apply lookup_replicate in Hrow as [-> _].
    rewrite length_replicate. lia.
Qed.

Lemma shaped_set m n dp i j v : shaped m n dp -> shaped m n (set_cell dp i j v).
Proof.
  intros [Hlen Hrows]. unfold set_cell. split.
  - rewrite length_alter. exact Hlen.
  - intros i' row Hrow. destruct (decide (i = i')) as [<-|Hne].
    + rewrite list_lookup_alter_eq in Hrow.
      destruct (dp !! i) as [r|] eqn:Er; simpl in Hrow; [|discriminate].
      injection Hrow as <-. rewrite length_insert. eapply Hrows, Er.
    + rewrite list_lookup_alter_ne in Hrow by exact Hne. eapply Hrows, Hrow.
Qed.

Lemma cell_set_eq m n dp i j v :
  shaped m n dp -> i <= m -> j <= n -> cell (set_cell dp i j v) i j = v.
Proof.
  intros [Hlen Hrows] Hi Hj. unfold cell, set_cell.
  rewrite list_lookup_alter_eq.
  destruct (lookup_lt_is_Some_2 dp i ltac:(lia)) as [row Hrow].
  rewrite Hrow. simpl.
  rewrite list_lookup_insert_eq; [reflexivity|].
  rewrite (Hrows i row Hrow). lia.
Qed.

Lemma cell_set_ne dp i j v i' j' :
  i <> i' \/ j <> j' -> cell (set_cell dp i j v) i' j' = cell dp i' j'.
Proof.
  intros Hne. unfold cell, set_cell.
  destruct (decide (i = i')) as [<-|Hi].
  - destruct Hne as [Hne|Hne]; [congruence|].
    rewrite list_lookup_alter_eq. destruct (dp !! i) as [row|]; simpl; [|reflexivity].
    rewrite list_lookup_insert_ne by exact Hne. reflexivity.
  - rewrite list_lookup_alter_ne by exact Hi. reflexivity.
Qed.

(** *** The recurrence *)

Lemma lev_0_l a b j : lev a b 0 j = j.
Proof. reflexivity. Qed.

Lemma lev_0_r a b i : lev a b i 0 = i.
Proof. destruct i; reflexivity. Qed.

Lemma lev_step a b i j :
  lev a b (S i) (S j) =
  min3 (lev a b i (S j) + 1) (lev a b (S i) j + 1)
       (lev a b i j + subst_cost a b (S i) (S j)).
Proof. reflexivity. Qed.

Lemma subst_cost_sym a b i j : subst_cost a b i j = subst_cost b a j i.
Proof.
  unfold subst_cost.
  destruct (decide (a !! (i - 1) = b !! (j - 1))) as [E|E].
  - rewrite !bool_decide_eq_true_2; [reflexivity | symmetry; exact E | exact E].
  - rewrite !bool_decide_eq_false_2; [reflexivity | congruence | exact E].
Qed.

Lemma lev_sym a b i j : lev a b i j = lev b a j i.
Proof.
  revert j. induction i as [|i IHi]; intros j.
  - rewrite lev_0_l, lev_0_r. reflexivity.
  - induction j as [|j IHj].
    + rewrite lev_0_l, lev_0_r. reflexivity.
    + rewrite !lev_step, IHj, !IHi, (subst_cost_sym a b).
      unfold min3. lia.
Qed.

(** *** The loops compute the recurrence *)

Section Fill.
Variables a b : jsstring.
Let m := length a.
Let n := length b.

Local Abbreviation filled_to := (filled a b).

Lemma first_column dp :
  shaped m n dp ->
  let dp' := for_loop 0 m (fun i dp => set_cell dp i 0 i) dp in
  shaped m n dp' /\ forall i, i <= m -> cell dp' i 0 = i.
Proof.
  intros Hdp dp'.
  assert (shaped m n dp' /\ forall i, i < S m -> cell dp' i 0 = i) as [H1 H2].
  { apply (for_loop_invariant
             (fun k t => shaped m n t /\ forall i, i < k -> cell t i 0 = i)).
    - lia.
    - split; [exact Hdp | intros; lia].
    - intros k t Hk [Ht Hcol]. split; [apply shaped_set, Ht|].
      intros i Hi. destruct (decide (k = i)) as [<-|Hne].
      + apply (cell_set_eq m n); [exact Ht | lia | lia].
      + rewrite cell_set_ne by (left; exact Hne). apply Hcol. lia. }
  split; [exact H1 | intros i Hi; apply H2; lia].
Qed.

Lemma first_row dp :
  shaped m n dp -> (forall i, i <= m -> cell dp i 0 = i) ->
  filled_to 1 1 (for_loop 0 n (fun j dp => set_cell dp 0 j j) dp).
Proof.
  intros Hdp Hcol.
  set (dp' := for_loop 0 n _ dp).
  assert (shaped m n dp' /\ (forall i, i <= m -> cell dp' i 0 = i)
          /\ forall j, j < S n -> cell dp' 0 j = j) as (H1 & H2 & H3).
  { apply (for_loop_invariant
             (fun k t => shaped m n t /\ (forall i, i <= m -> cell t i 0 = i)
                         /\ forall j, j < k -> cell t 0 j = j)).
    - lia.
    - repeat split; [apply Hdp | apply Hdp | exact Hcol | intros; lia].
    - intros k t Hk (Ht & Hc & Hr). split; [apply shaped_set, Ht|]. split.
      + intros i Hi. destruct (decide (i = 0 /\ k = 0)) as [[-> ->]|Hne].
        * apply (cell_set_eq m n); [exact Ht | lia | lia].
        * rewrite cell_set_ne by lia. apply Hc, Hi.
      + intros j Hj. destruct (decide (k = j)) as [<-|Hne].
        * apply (cell_set_eq m n); [exact Ht | lia | lia].
        * rewrite cell_set_ne by (right; exact Hne). apply Hr. lia. }
  split; [exact H1|].
  intros i' j' Hi' Hj' Hdone.
  destruct (decide (j' = 0)) as [->|Hj0].
  - rewrite lev_0_r. apply H2, Hi'.
  - assert (i' = 0) as -> by lia. rewrite lev_0_l. apply H3. lia.
Qed.

Lemma inner_step i j dp :
  1 <= i <= m -> 1 <= j <= n -> filled_to i j dp ->
  filled_to i (S j)
    (set_cell dp i j
       (min3 (cell dp (i - 1) j + 1) (cell dp i (j - 1) + 1)
             (cell dp (i - 1) (j - 1) + subst_cost a b i j))).
Proof.
  intros Hi Hj [Hdp Hcells]. split; [apply shaped_set, Hdp|].
  intros i' j' Hi' Hj' Hdone.
  destruct (decide (i = i' /\ j = j')) as [[<- <-]|Hne].
  - rewrite (cell_set_eq m n) by (assumption || lia).
    rewrite !Hcells by lia.
    destruct i as [|i0]; [lia|]. destruct j as [|j0]; [lia|].
    rewrite lev_step. replace (S i0 - 1) with i0 by lia.
    replace (S j0 - 1) with j0 by lia. reflexivity.
  - rewrite cell_set_ne by lia. apply Hcells; lia.
Qed.

Lemma fill_table_filled : filled_to (S m) 1 (fill_table a b).
Proof.
  unfold fill_table. fold m n.
  destruct (first_column (new_table m n) (shaped_new m n)) as [Hs Hcol].
  pose proof (first_row _ Hs Hcol) as Hrow.
  apply (for_loop_invariant (fun i t => filled_to i 1 t)); [lia | exact Hrow |].
  intros i t Hi Ht.
  assert (filled_to i (S n)
            (for_loop 1 n (fun j dp =>
               let cost := subst_cost a b i j in
               set_cell dp i j
                 (min3 (cell dp (i - 1) j + 1) (cell dp i (j - 1) + 1)
                       (cell dp (i - 1) (j - 1) + cost))) t)) as [Hs' Hc'].
  { apply (for_loop_invariant (fun j t => filled_to i j t)); [lia | exact Ht |].
    intros j t' Hj Ht'. apply inner_step; [lia | lia | exact Ht']. }
  split; [exact Hs'|].
  intros i' j' Hi' Hj' Hdone. apply Hc'; lia.
Qed.

Lemma fill_table_lev : cell (fill_table a b) m n = lev a b m n.
Proof.
  destruct fill_table_filled as [_ H]. apply H; lia.
Qed.

End Fill.
End Table.

(** ** [levenshtein] *)

Section Distance.
Context `{U : Unicode}.
Local Open Scope nat_scope.

(** The early returns and the table together compute the recurrence on the
    normalized strings. *)
Lemma levenshtein_lev a b :
  levenshtein a b =
  lev (normalize a) (normalize b) (length (normalize a)) (length (normalize b)).
Proof.
  unfold levenshtein.
  destruct (Nat.eqb_spec (length (normalize a)) 0) as [->|_];
    [rewrite lev_0_l; reflexivity|].
  destruct (Nat.eqb_spec (length (normalize b)) 0) as [->|_];
    [rewrite lev_0_r; reflexivity|].
  apply fill_table_lev.
Qed.

Lemma levenshtein_normalized a b :
  levenshtein a b = levenshtein (normalize a) (normalize b).
Proof.
  rewrite (levenshtein_lev (normalize a)).
  rewrite !(normalize_fixed (normalize _)) by apply normalize_canonical.
  apply levenshtein_lev.
Qed.

Lemma lev_diagonal a i : lev a a i i = 0.
Proof.
  induction i as [|i IH]; [reflexivity|].
  rewrite lev_step, IH. unfold subst_cost, min3.
  rewrite bool_decide_eq_true_2 by reflexivity. lia.
Qed.

(** The distance of a string to itself is 0. *)
Lemma levenshtein_self a : levenshtein a a = 0.
Proof. rewrite levenshtein_lev. apply lev_diagonal. Qed.

Lemma canonical_is_latin1 s : canonical s = true -> is_latin1 s = true.
Proof.
  unfold canonical. rewrite !andb_true_iff. intros [[Hp _] _].
  apply plain_is_latin1, Hp.
Qed.

Lemma levenshtein_latin1 a b :
  is_latin1 a = true -> is_latin1 b = true ->
  levenshtein a b = @levenshtein runtime_model a b.
Proof.
  intros Ha Hb. unfold levenshtein.
  rewrite (normalize_latin1 a Ha), (normalize_latin1 b Hb). reflexivity.
Qed.

End Distance.

(** One substitution apart. *)
Example levenshtein_metropolotana `{U : Unicode} :
  levenshtein (js "metropolitana") (js "metropolotana") = 1%nat.
Proof. rewrite levenshtein_latin1 by reflexivity. vm_compute. reflexivity. Qed.

(** ** [includes] *)

Lemma startsWith_spec s t : startsWith s t = true <-> exists r, s = t ++ r.
Proof.
  revert s. induction t as [|x t IH]; intros s; simpl.
  - split; [intros _; exists s; reflexivity | reflexivity].
  - destruct s as [|y s].
    + split; [discriminate | intros [r Hr]; discriminate].
    + rewrite andb_true_iff, N.eqb_eq, IH. split.
      * intros [-> [r ->]]. exists r. reflexivity.
      * intros [r Hr]. injection Hr as -> ->. split; [reflexivity | exists r; reflexivity].
Qed.

Lemma includes_spec s t :
  includes s t = true <-> exists l r, s = l ++ t ++ r.
Proof.
  induction s as [|y s IH].
  - simpl. rewrite orb_false_r, startsWith_spec. split.
    + intros [r Hr]. exists [], r. exact Hr.
    + intros (l & r & Hs). destruct l; [exists r; exact Hs | discriminate].
  - cbn [includes]. rewrite orb_true_iff, startsWith_spec, IH. split.
    + intros [[r Hr] | (l & r & ->)].
      * exists [], r. exact Hr.
      * exists (y :: l), r. reflexivity.
    + intros (l & r & Hs). destruct l as [|z l].
      * left. exists r. exact Hs.
      * right. injection Hs as -> ->. exists l, r. reflexivity.
Qed.

(** ** The alias table is never reached *)

Section Aliases.
Context `{U : Unicode}.

(** The name under which the aliases are stored is not a canonical key:
    it contains U+00F3. *)
Lemma alias_key_not_canonical regionName :
  js "regi" ++ [o_acute] ++ js "n metropolitana de santiago"
  <> normalize regionName.
Proof.
  intros E. pose proof (normalize_canonical regionName) as Hc.
  rewrite <- E in Hc. vm_compute in Hc. discriminate.
Qed.

Lemma REGION_ALIASES_miss regionName :
  REGION_ALIASES !! normalize regionName = None.
Proof.
  unfold REGION_ALIASES. apply lookup_singleton_ne, alias_key_not_canonical.
Qed.

Lemma SAMTEK_key :
  normalize (region SAMTEK) = js "region metropolitana de santiago".
Proof. rewrite normalize_latin1 by reflexivity. vm_compute. reflexivity. Qed.

Lemma catalog_aliases sc :
  In sc serviceCenters -> get_REGION_ALIASES (normalize (region sc)) = None.
Proof.
  intros [<-|[]]. unfold get_REGION_ALIASES.
  rewrite REGION_ALIASES_miss, SAMTEK_key. vm_compute. reflexivity.
Qed.

Lemma isAliasMatch_catalog input sc :
  In sc serviceCenters ->
  isAliasMatch input (region sc) =
  isAliasMatch_without_alias_checks input (region sc).
Proof.
  intros Hsc. unfold isAliasMatch, isAliasMatch_without_alias_checks.
  rewrite (catalog_aliases sc Hsc). simpl.
  repeat (match goal with |- context [if ?c then _ else _] => destruct c end;
          try reflexivity).
Qed.

(** On the catalog [isAliasMatch] is the disjunction of its three remaining
    clauses, and it returns. *)
Lemma isAliasMatch_clauses input sc :
  In sc serviceCenters ->
  isAliasMatch input (region sc) =
  Normal (exact_match input sc
          || ((6 <=? length (normalize input))%nat
              && substring_match input (region sc))
          || fuzzy_match input (region sc)).
Proof.
  intros Hsc. rewrite (isAliasMatch_catalog input sc Hsc).
  unfold isAliasMatch_without_alias_checks, exact_match, substring_match,
    fuzzy_match.
  destruct (decide (normalize input = normalize (region sc))) as [E|E].
  - rewrite !bool_decide_eq_true_2 by congruence. reflexivity.
  - rewrite !bool_decide_eq_false_2 by congruence. simpl.
    destruct (_ && _); [reflexivity|]. simpl.
    destruct (_ <=? _)%nat; reflexivity.
Qed.

Lemma find_alias_checks_idle input :
  findByRegionFlexible input = findByRegionFlexible_without_alias_checks input.
Proof.
  unfold findByRegionFlexible, findByRegionFlexible_without_alias_checks.
  destruct (find _ serviceCenters); [reflexivity|].
  unfold serviceCenters, find_c.
  rewrite (isAliasMatch_catalog input SAMTEK) by (left; reflexivity).
  reflexivity.
Qed.

(** What [findByRegionFlexible] returns, entry by entry. *)
Lemma findByRegionFlexible_qualifies input :
  findByRegionFlexible input = Normal (find (qualifies input) serviceCenters).
Proof.
  unfold findByRegionFlexible, serviceCenters, find, find_c, qualifies.
  fold (exact_match input SAMTEK).
  rewrite (isAliasMatch_clauses input SAMTEK) by (left; reflexivity).
  destruct (exact_match input SAMTEK); [reflexivity|]. simpl.
  destruct (_ || _); reflexivity.
Qed.

End Aliases.

(** On Latin-1 input every runtime gives the result of [runtime_model]. *)
Lemma findByRegionFlexible_latin1 `{U : Unicode} input :
  is_latin1 input = true ->
  findByRegionFlexible input = @findByRegionFlexible runtime_model input.
Proof.
  intros Hin.
  rewrite find_alias_checks_idle.
  rewrite (@find_alias_checks_idle runtime_model).
  unfold findByRegionFlexible_without_alias_checks,
    isAliasMatch_without_alias_checks, serviceCenters, find, find_c.
  rewrite (levenshtein_latin1 (normalize input) (normalize (region SAMTEK)))
    by (apply canonical_is_latin1, normalize_canonical).
  rewrite (normalize_latin1 input Hin).
  rewrite (normalize_latin1 (region SAMTEK)) by reflexivity.
  reflexivity.
Qed.

(** * The claims *)

(** C1.  The specification expects [resolve("rm")] to return the SAMTEK
    entry through its registered alias.  The code returns [null]: the alias
    "rm" is stored under the accented name, where the lookup by the
    canonical key of the region never finds it. *)
Theorem rm_is_not_resolved `{U : Unicode} :
  findByRegionFlexible (js "rm") = Normal None
  /\ get_REGION_ALIASES (normalize (region SAMTEK)) = None
  /\ get_REGION_ALIASES
       (js "regi" ++ [o_acute] ++ js "n metropolitana de santiago")
     = Some (AliasArray SAMTEK_aliases)
  /\ In (js "rm") SAMTEK_aliases.
Proof.
  split; [|split; [|split]].
  - rewrite findByRegionFlexible_latin1 by reflexivity. vm_compute. reflexivity.
  - apply catalog_aliases. left. reflexivity.
  - vm_compute. reflexivity.
  - right. left. reflexivity.
Qed.

(** C2.  For every input, [findByRegionFlexible] returns what it returns
    with the two checks on the alias list deleted: no canonical key is a
    name of [REGION_ALIASES], so the list retrieved is always empty. *)
Theorem alias_checks_never_match `{U : Unicode} :
  (forall regionName, REGION_ALIASES !! normalize regionName = None)
  /\ (forall sc, In sc serviceCenters ->
        default (AliasArray []) (get_REGION_ALIASES (normalize (region sc)))
        = AliasArray [])
  /\ (forall input,
        findByRegionFlexible input
        = findByRegionFlexible_without_alias_checks input).
Proof.
  split; [|split].
  - apply REGION_ALIASES_miss.
  - intros sc Hsc. rewrite (catalog_aliases sc Hsc). reflexivity.
  - apply find_alias_checks_idle.
Qed.

Lemma replace_symbols_lookup t i c :
  t !! i = Some c ->
  replace_symbols t !! i = Some (if is_alnum c || is_space c then c else SP).
Proof.
  revert i. induction t as [|d t IH]; intros [|i]; simpl; try discriminate.
  - intros [= ->]. reflexivity.
  - apply IH.
Qed.

(** C3, as stated, fails on [normalize] of [src/index.js]: punctuation is
    kept there. *)
Lemma basic_normalize_keeps_punctuation :
  @Basic.normalize runtime_model (js "Santiago, Chile!") <> js "santiago chile".
Proof. vm_compute. discriminate. Qed.

(** C3, amended.  [normalize] of the flexible matcher, after lower-casing,
    decomposing and removing the accents, puts a space in the place of
    every code unit that is not one of [a-z], [0-9] or white space,
    collapses the runs of white space and trims: what it returns has
    letters, digits and single spaces only, with no space at either end,
    and [normalize("Santiago, Chile!")] is ["santiago chile"].  [normalize]
    of [src/index.js] has no such step: there
    [normalize("Santiago, Chile!")] is ["santiago, chile!"]. *)
Theorem normalize_replaces_symbols `{U : Unicode} :
  (forall s,
     let t := strip_marks (nfd (toLowerCase s)) in
     length (replace_symbols t) = length t
     /\ (forall i c, t !! i = Some c ->
           replace_symbols t !! i
           = Some (if is_alnum c || is_space c then c else SP))
     /\ normalize s = trim (collapse_spaces (replace_symbols t))
     /\ canonical (normalize s) = true)
  /\ normalize (js "Santiago, Chile!") = js "santiago chile"
  /\ Basic.normalize (js "Santiago, Chile!") = js "santiago, chile!".
Proof.
  split; [|split].
  - intros s t. split; [apply length_map|]. split; [apply replace_symbols_lookup|].
    split; [reflexivity | apply normalize_canonical].
  - rewrite normalize_latin1 by reflexivity. vm_compute. reflexivity.
  - apply BasicFacts.normalize_keeps_punctuation.
Qed.

Lemma find_first {A : Type} (p : A -> bool) before x after :
  p x = true -> (forall y, In y before -> p y = false) ->
  find p (before ++ x :: after) = Some x.
Proof.
  intros Hx. induction before as [|y before IH]; intros Hb; simpl.
  - rewrite Hx. reflexivity.
  - rewrite (Hb y) by (left; reflexivity). apply IH.
    intros z Hz. apply Hb. right. exact Hz.
Qed.

(** [isAliasMatch] on a region whose key names no property of
    [REGION_ALIASES]: the disjunction of the three remaining clauses. *)
Lemma isAliasMatch_unlisted `{U : Unicode} input regionName :
  get_REGION_ALIASES (normalize regionName) = None ->
  isAliasMatch input regionName =
  Normal (bool_decide (normalize regionName = normalize input)
          || ((6 <=? length (normalize input))%nat
              && substring_match input regionName)
          || fuzzy_match input regionName).
Proof.
  intros Hk. unfold isAliasMatch, substring_match, fuzzy_match.
  rewrite Hk. cbn [default some existsb mbind completion_bind].
  destruct (decide (normalize input = normalize regionName)) as [E|E].
  - rewrite !bool_decide_eq_true_2 by congruence. reflexivity.
  - rewrite !bool_decide_eq_false_2 by congruence. cbn [orb].
    destruct (_ && _); [reflexivity|]. cbn [orb].
    destruct (_ <=? _)%nat; reflexivity.
Qed.

Lemma find_c_returns {A : Type} (p : A -> completion bool) (q : A -> bool) l :
  (forall x, In x l -> p x = Normal (q x)) -> find_c p l = Normal (find q l).
Proof.
  induction l as [|x l IH]; intros Hp; simpl; [reflexivity|].
  rewrite (Hp x) by (left; reflexivity).
  destruct (q x); [reflexivity|].
  apply IH. intros y Hy. apply Hp. right. exact Hy.
Qed.

Lemma find_all_false {A : Type} (p : A -> bool) l :
  (forall x, In x l -> p x = false) -> find p l = None.
Proof.
  induction l as [|x l IH]; intros Hp; simpl; [reflexivity|].
  rewrite (Hp x) by (left; reflexivity).
  apply IH. intros y Hy. apply Hp. right. exact Hy.
Qed.

(** C4.  The strategies are tried in a fixed order, over any catalog.
    When the canonical key of the input is the canonical key of an entry,
    the first such entry of the catalog is returned, whatever
    [isAliasMatch] says of the entries before it.  When it is the key of no
    entry, the first entry of the catalog that qualifies is returned, and
    an entry qualifies there by the substring clause or the fuzzy clause
    (the keys being no property names of [REGION_ALIASES]).  On the catalog
    of the source, which has one entry, the entry returned is the first
    that qualifies for every input. *)
Theorem findByRegionFlexible_priority `{U : Unicode}
    (catalog : list ServiceCenter) (input : jsstring) :
  (forall before sc after,
     catalog = before ++ sc :: after ->
     exact_match input sc = true ->
     (forall x, In x before -> exact_match input x = false) ->
     findByRegionFlexible_on catalog input = Normal (Some sc))
  /\ ((forall x, In x catalog -> exact_match input x = false) ->
      (forall x, In x catalog ->
         get_REGION_ALIASES (normalize (region x)) = None) ->
      findByRegionFlexible_on catalog input
      = Normal (find (qualifies input) catalog)
      /\ (forall x, In x catalog ->
            qualifies input x
            = ((6 <=? length (normalize input))%nat
               && substring_match input (region x))
              || fuzzy_match input (region x)))
  /\ findByRegionFlexible input = findByRegionFlexible_on serviceCenters input
  /\ findByRegionFlexible input = Normal (find (qualifies input) serviceCenters).
Proof.
  split; [|split; [|split; [reflexivity | apply findByRegionFlexible_qualifies]]].
  - intros before sc after Hcat Hsc Hbefore. unfold findByRegionFlexible_on.
    fold (exact_match input). rewrite Hcat.
    rewrite (find_first (exact_match input) before sc after Hsc Hbefore).
    reflexivity.
  - intros Hexact Hkeys.
    assert (Hq : forall x, In x catalog ->
              isAliasMatch input (region x) = Normal (qualifies input x)
              /\ qualifies input x
                 = ((6 <=? length (normalize input))%nat
                    && substring_match input (region x))
                   || fuzzy_match input (region x)).
    { intros x Hx. unfold qualifies.
      rewrite (isAliasMatch_unlisted input (region x) (Hkeys x Hx)).
      fold (exact_match input x). rewrite (Hexact x Hx). split; reflexivity. }
    split; [|intros x Hx; apply (Hq x Hx)].
    unfold findByRegionFlexible_on. fold (exact_match input).
    rewrite (find_all_false (exact_match input) catalog Hexact).
    apply find_c_returns. intros x Hx. apply (Hq x Hx).
Qed.

Lemma findByRegionFlexible_priority_witness :
  let zona_1 := {| region := js "Zona 1"; name := js "Uno";
                   address := js "Calle 1"; products := js "Notebook";
                   image := js "uno.png" |} in
  let zona_2 := {| region := js "Zona 2"; name := js "Dos";
                   address := js "Calle 2"; products := js "Notebook";
                   image := js "dos.png" |} in
  @qualifies runtime_model (js "Zona 2") zona_1 = true
  /\ @findByRegionFlexible_on runtime_model [zona_1; zona_2] (js "Zona 2")
     = Normal (Some zona_2)
  /\ @findByRegionFlexible_on runtime_model [zona_1; zona_2] (js "Zona 3")
     = Normal (Some zona_1).
Proof.
  intros zona_1 zona_2.
  split; [vm_compute; reflexivity|]. split.
  - apply (proj1 (@findByRegionFlexible_priority runtime_model
                    [zona_1; zona_2] (js "Zona 2")) [zona_1] zona_2 []).
    + reflexivity.
    + vm_compute. reflexivity.
    + intros x [<-|[]]. vm_compute. reflexivity.
  - refine (eq_trans
              (proj1 (proj1 (proj2 (@findByRegionFlexible_priority runtime_model
                        [zona_1; zona_2] (js "Zona 3"))) _ _)) _).
    + intros x [<-|[<-|[]]]; vm_compute; reflexivity.
    + intros x [<-|[<-|[]]]; vm_compute; reflexivity.
    + vm_compute. reflexivity.
Defined.

(** C5.  The substring clause needs a normalized input of six code units
    or more.  For a catalog entry and a shorter input, [isAliasMatch]
    answers by the exact and the fuzzy clause alone, containment or not;
    for an input of six or more, containment in either direction makes it
    answer [true]. *)
Theorem substring_needs_six `{U : Unicode} (input : jsstring) (sc : ServiceCenter) :
  In sc serviceCenters ->
  ((length (normalize input) < 6)%nat ->
     isAliasMatch input (region sc)
     = Normal (exact_match input sc || fuzzy_match input (region sc)))
  /\ ((6 <= length (normalize input))%nat ->
      includes (normalize input) (normalize (region sc)) = true
      \/ includes (normalize (region sc)) (normalize input) = true ->
      isAliasMatch input (region sc) = Normal true).
Proof.
  intros Hsc. rewrite (isAliasMatch_clauses input sc Hsc). split.
  - intros Hlen. apply Nat.leb_gt in Hlen. rewrite Hlen. simpl.
    rewrite orb_false_r. reflexivity.
  - intros Hlen Hsub. apply Nat.leb_le in Hlen. rewrite Hlen.
    unfold substring_match.
    destruct Hsub as [-> | ->]; simpl;
      rewrite ?orb_true_r; reflexivity.
Qed.

Lemma substring_needs_six_witness :
  In SAMTEK serviceCenters
  /\ ((length (@normalize runtime_model (js "santi")) < 6)%nat
      /\ includes (@normalize runtime_model (region SAMTEK))
                  (@normalize runtime_model (js "santi")) = true
      /\ @isAliasMatch runtime_model (js "santi") (region SAMTEK)
         = Normal false)
  /\ ((6 <= length (@normalize runtime_model (js "santiago")))%nat
      /\ includes (@normalize runtime_model (region SAMTEK))
                  (@normalize runtime_model (js "santiago")) = true
      /\ @isAliasMatch runtime_model (js "santiago") (region SAMTEK)
         = Normal true).
Proof.
  assert (HS : In SAMTEK serviceCenters) by (left; reflexivity).
  split; [exact HS|]. split.
  - split; [vm_compute; lia|]. split; [vm_compute; reflexivity|].
    rewrite (proj1 (@substring_needs_six runtime_model (js "santi") SAMTEK HS)).
    + vm_compute. reflexivity.
    + vm_compute. lia.
  - split; [vm_compute; lia|]. split; [vm_compute; reflexivity|].
    apply (proj2 (@substring_needs_six runtime_model (js "santiago") SAMTEK HS)).
    + vm_compute. lia.
    + right. vm_compute. reflexivity.
Defined.

(** C6, as stated, fails on [normalize] of [src/index.js]: the first pass
    removes the joiner (it lies in U+0300..U+036F), and the second pass then
    puts hiriq (class 14) before patah (class 17). *)
Lemma basic_normalize_not_idempotent :
  @Basic.normalize runtime_model
    (@Basic.normalize runtime_model lamed_patah_cgj_hiriq)
  <> @Basic.normalize runtime_model lamed_patah_cgj_hiriq.
Proof. vm_compute. discriminate. Qed.

(** C6, amended.  [normalize] of the flexible matcher is idempotent on
    every string; [normalize] of [src/index.js] is idempotent on Latin-1
    text. *)
Theorem normalize_idempotent `{U : Unicode} :
  (forall s, normalize (normalize s) = normalize s)
  /\ (forall s, is_latin1 s = true ->
        Basic.normalize (Basic.normalize s) = Basic.normalize s).
Proof.
  split.
  - intros s. apply normalize_fixed, normalize_canonical.
  - apply BasicFacts.normalize_idempotent_latin1.
Qed.

Lemma normalize_idempotent_witness :
  is_latin1 (region SAMTEK) = true
  /\ @Basic.normalize runtime_model (@Basic.normalize runtime_model (region SAMTEK))
     = @Basic.normalize runtime_model (region SAMTEK).
Proof.
  split; [reflexivity|].
  apply (proj2 (@normalize_idempotent runtime_model) (region SAMTEK)).
  reflexivity.
Defined.

(** C7.  [levenshtein] normalizes both arguments itself, and against the
    empty string it returns the length of the other normalized argument. *)
Theorem levenshtein_base_cases `{U : Unicode} :
  (forall a, levenshtein a [] = length (normalize a))
  /\ (forall b, levenshtein [] b = length (normalize b))
  /\ (forall a b, levenshtein a b = levenshtein (normalize a) (normalize b)).
Proof.
  split; [|split].
  - intros a. rewrite levenshtein_lev, normalize_nil. apply lev_0_r.
  - intros b. rewrite levenshtein_lev, normalize_nil. apply lev_0_l.
  - apply levenshtein_normalized.
Qed.

(** C8.  [levenshtein] is symmetric. *)
Theorem levenshtein_symmetric `{U : Unicode} (a b : jsstring) :
  levenshtein a b = levenshtein b a.
Proof. rewrite !levenshtein_lev. apply lev_sym. Qed.

(** C9.  When no entry qualifies, [findByRegionFlexible] returns [null] as
    a value; it never throws.  "Valparaiso" written with its accent is such
    an input: it is not the key of SAMTEK, neither contains the other, the
    distance to the key is above 2, and so is the distance to every alias
    of the table. *)
Theorem not_found_is_a_value `{U : Unicode} :
  let valparaiso := js "Valpara" ++ [i_acute] ++ js "so" in
  (findByRegionFlexible valparaiso = Normal None
   /\ exact_match valparaiso SAMTEK = false
   /\ substring_match valparaiso (region SAMTEK) = false
   /\ fuzzy_match valparaiso (region SAMTEK) = false
   /\ forallb (fun a => negb (bool_decide (normalize a = normalize valparaiso))
                        && (2 <? levenshtein (normalize valparaiso) a)%nat)
              SAMTEK_aliases = true)
  /\ (forall input,
        (forall sc, In sc serviceCenters -> qualifies input sc = false) ->
        findByRegionFlexible input = Normal None)
  /\ (forall input, findByRegionFlexible input <> ThrowTypeError).
Proof.
  intros valparaiso.
  assert (Hv : is_latin1 valparaiso = true) by reflexivity.
  assert (Hn : is_latin1 (normalize valparaiso) = true)
    by apply canonical_is_latin1, normalize_canonical.
  split; [|split].
  - split; [rewrite findByRegionFlexible_latin1 by exact Hv; vm_compute; reflexivity|].
    assert (Hk : @normalize U (region SAMTEK)
                 = @normalize runtime_model (region SAMTEK))
      by (apply normalize_latin1; reflexivity).
    unfold exact_match, substring_match, fuzzy_match.
    rewrite (levenshtein_latin1 (normalize valparaiso) (normalize (region SAMTEK)))
      by first [exact Hn | apply canonical_is_latin1, normalize_canonical].
    rewrite Hk, (normalize_latin1 valparaiso Hv).
    split; [vm_compute; reflexivity|]. split; [vm_compute; reflexivity|].
    split; [vm_compute; reflexivity|].
    apply forallb_forall. intros a Ha.
    assert (Hal : is_latin1 a = true).
    { revert a Ha. apply forallb_forall. vm_compute. reflexivity. }
    rewrite (levenshtein_latin1 _ a)
      by first [exact Hal | apply canonical_is_latin1, normalize_canonical].
    rewrite (normalize_latin1 a Hal).
    clear Hal. revert a Ha. apply forallb_forall. vm_compute. reflexivity.
  - intros input Hnone. rewrite findByRegionFlexible_qualifies.
    destruct (find _ _) as [sc|] eqn:E; [|reflexivity].
    apply find_some in E as [Hin Hq]. rewrite (Hnone sc Hin) in Hq. discriminate.
  - intros input. rewrite findByRegionFlexible_qualifies. discriminate.
Qed.

Lemma not_found_is_a_value_witness :
  (forall sc, In sc serviceCenters ->
     @qualifies runtime_model (js "arica") sc = false)
  /\ @findByRegionFlexible runtime_model (js "arica") = Normal None.
Proof.
  assert (H : forall sc, In sc serviceCenters ->
                @qualifies runtime_model (js "arica") sc = false).
  { intros sc [<-|[]]. vm_compute. reflexivity. }
  split; [exact H|].
  exact (proj1 (proj2 (@not_found_is_a_value runtime_model)) (js "arica") H).
Defined.

(** C10.  [findByRegionFlexible] is total: on the empty string it returns
    [null], and on every string it returns [null] or an entry of the
    catalog, without throwing. *)
Theorem findByRegionFlexible_total `{U : Unicode} :
  findByRegionFlexible [] = Normal None
  /\ (forall input,
        findByRegionFlexible input = Normal None
        \/ exists sc, In sc serviceCenters
                      /\ findByRegionFlexible input = Normal (Some sc)).
Proof.
  split.
  - rewrite findByRegionFlexible_latin1 by reflexivity. vm_compute. reflexivity.
  - intros input. rewrite findByRegionFlexible_qualifies.
    destruct (find _ _) as [sc|] eqn:E; [right | left; reflexivity].
    exists sc. split; [|reflexivity]. apply find_some in E. apply E.
Qed.

(** * Further properties of the matcher *)

(** ** The distance as a measure of difference *)

Section Metric.
Local Open Scope nat_scope.

Lemma lev_bounds a b i j :
  i <= lev a b i j + j /\ j <= lev a b i j + i /\ lev a b i j <= Nat.max i j.
Proof.
  revert j. induction i as [|i IHi]; intros j.
  - rewrite lev_0_l. lia.
  - induction j as [|j IHj].
    + rewrite lev_0_r. lia.
    + rewrite lev_step. unfold min3, subst_cost.
      pose proof (IHi (S j)). pose proof (IHi j).
      destruct (bool_decide _); lia.
Qed.

Lemma lev_zero a b i j :
  i <= length a -> j <= length b ->
  lev a b i j = 0 -> i = j /\ take i a = take j b.
Proof.
  revert j. induction i as [|i IHi]; intros j Hi Hj.
  - rewrite lev_0_l. intros ->. split; reflexivity.
  - destruct j as [|j]; [rewrite lev_0_r; discriminate|].
    rewrite lev_step. unfold min3, subst_cost.
    replace (S i - 1) with i by lia. replace (S j - 1) with j by lia.
    destruct (decide (a !! i = b !! j)) as [E|E].
    + rewrite bool_decide_eq_true_2 by exact E. intros H0.
      destruct (IHi j) as [-> Ht]; [lia | lia | lia |].
      split; [reflexivity|].
      destruct (lookup_lt_is_Some_2 a j ltac:(lia)) as [x Hx].
      rewrite (take_S_r a j x Hx), (take_S_r b j x) by congruence.
      rewrite Ht. reflexivity.
    + rewrite bool_decide_eq_false_2 by exact E. lia.
Qed.

End Metric.

(** ** The distance is the least number of edits *)

(** [edits n a b]: [a] becomes [b] by deleting, inserting and replacing
    code units, [n] of them in all; a code unit kept costs nothing. *)
Inductive edits : nat -> jsstring -> jsstring -> Prop :=
  | edits_nil : edits 0 [] []
  | edits_delete n x a b : edits n a b -> edits (S n) (x :: a) b
  | edits_insert n y a b : edits n a b -> edits (S n) a (y :: b)
  | edits_keep n x a b : edits n a b -> edits n (x :: a) (x :: b)
  | edits_replace n x y a b : edits n a b -> edits (S n) (x :: a) (y :: b).

(** The recurrence of [lev] read from the front of the strings. *)
Fixpoint lev_front (a : jsstring) : jsstring -> nat :=
  match a with
  | [] => fun b => length b
  | x :: a' =>
      fix lev_front_row (b : jsstring) : nat :=
        match b with
        | [] => S (length a')
        | y :: b' =>
            min3 (lev_front a' (y :: b') + 1)
                 (lev_front_row b' + 1)
                 (lev_front a' b' + (if bool_decide (x = y) then 0 else 1))%nat
        end
  end.

Section Edits.
Local Open Scope nat_scope.

Lemma lev_front_nil_r a : lev_front a [] = length a.
Proof. destruct a; reflexivity. Qed.

Lemma lev_front_cons x a y b :
  lev_front (x :: a) (y :: b) =
  min3 (lev_front a (y :: b) + 1) (lev_front (x :: a) b + 1)
       (lev_front a b + (if bool_decide (x = y) then 0 else 1)).
Proof. reflexivity. Qed.

Lemma rev_take_S (a : jsstring) i x :
  a !! i = Some x -> rev (take (S i) a) = x :: rev (take i a).
Proof. intros Hx. rewrite (take_S_r a i x Hx), rev_app_distr. reflexivity. Qed.

(** The table recurrence on prefixes is the front recurrence on the
    prefixes reversed. *)
Lemma lev_lev_front a b i j :
  i <= length a -> j <= length b ->
  lev a b i j = lev_front (rev (take i a)) (rev (take j b)).
Proof.
  revert j. induction i as [|i IHi]; intros j Hi Hj.
  - rewrite lev_0_l. change (take 0 a) with (@nil N). cbn [rev lev_front].
    rewrite length_rev, length_take. lia.
  - induction j as [|j IHj].
    + rewrite lev_0_r. change (take 0 b) with (@nil N). cbn [rev].
      rewrite lev_front_nil_r.
      rewrite length_rev, length_take. lia.
    + destruct (lookup_lt_is_Some_2 a i ltac:(lia)) as [x Hx].
      destruct (lookup_lt_is_Some_2 b j ltac:(lia)) as [y Hy].
      rewrite lev_step, (IHi (S j)), (IHi j), IHj by lia.
      rewrite (rev_take_S a i x Hx), (rev_take_S b j y Hy), lev_front_cons.
      unfold subst_cost. replace (S i - 1) with i by lia.
      replace (S j - 1) with j by lia. rewrite Hx, Hy.
      destruct (decide (x = y)) as [->|E].
      * rewrite !bool_decide_eq_true_2 by reflexivity. reflexivity.
      * rewrite !bool_decide_eq_false_2 by congruence. reflexivity.
Qed.

Lemma edits_inserts b : edits (length b) [] b.
Proof. induction b; [constructor | apply edits_insert; assumption]. Qed.

Lemma edits_deletes a : edits (length a) a [].
Proof. induction a; [constructor | apply edits_delete; assumption]. Qed.

(** The front recurrence is reached by some edits ... *)
Lemma edits_lev_front a b : edits (lev_front a b) a b.
Proof.
  revert b. induction a as [|x a IHa]; intros b; [apply edits_inserts|].
  induction b as [|y b IHb]; [apply (edits_deletes (x :: a))|].
  rewrite lev_front_cons. unfold min3.
  destruct (decide (x = y)) as [->|E].
  - rewrite bool_decide_eq_true_2 by reflexivity. rewrite Nat.add_0_r.
    destruct (Nat.min_spec (lev_front a (y :: b) + 1)
                (Nat.min (lev_front (y :: a) b + 1) (lev_front a b))) as [[_ ->]|[_ ->]].
    + rewrite Nat.add_1_r. apply edits_delete, IHa.
    + destruct (Nat.min_spec (lev_front (y :: a) b + 1) (lev_front a b))
        as [[_ ->]|[_ ->]].
      * rewrite Nat.add_1_r. apply edits_insert, IHb.
      * apply edits_keep, IHa.
  - rewrite bool_decide_eq_false_2 by exact E.
    destruct (Nat.min_spec (lev_front a (y :: b) + 1)
                (Nat.min (lev_front (x :: a) b + 1) (lev_front a b + 1)))
      as [[_ ->]|[_ ->]].
    + rewrite Nat.add_1_r. apply edits_delete, IHa.
    + destruct (Nat.min_spec (lev_front (x :: a) b + 1) (lev_front a b + 1))
        as [[_ ->]|[_ ->]]; rewrite Nat.add_1_r.
      * apply edits_insert, IHb.
      * apply edits_replace, IHa.
Qed.

(** ... and no edits do better. *)
Lemma lev_front_least n a b : edits n a b -> lev_front a b <= n.
Proof.
  induction 1 as [|n x a b _ IH|n y a b _ IH|n x a b _ IH|n x y a b _ IH].
  - simpl. lia.
  - destruct b as [|y b]; [rewrite !lev_front_nil_r in *; simpl; lia|].
    rewrite lev_front_cons. unfold min3. lia.
  - destruct a as [|x a]; [simpl in *; lia|].
    rewrite lev_front_cons. unfold min3. lia.
  - rewrite lev_front_cons, bool_decide_eq_true_2 by reflexivity.
    unfold min3. lia.
  - rewrite lev_front_cons. unfold min3. destruct (bool_decide _); lia.
Qed.

(** Edits compose. *)
Lemma edits_compose n a b :
  edits n a b -> forall m c, edits m b c -> exists k, k <= n + m /\ edits k a c.
Proof.
  induction 1 as [|n x a b _ IH|n y a b _ IH|n x a b _ IH|n x y a b _ IH];
    intros m c Hbc.
  - exists m. split; [lia | exact Hbc].
  - destruct (IH m c Hbc) as (k & Hk & He).
    exists (S k). split; [lia | apply edits_delete, He].
  - remember (y :: b) as yb eqn:Eyb. revert Eyb.
    induction Hbc as [|m z b' c Hbc' _|m z b' c _ IHc|m z b' c Hbc' _|m z w b' c Hbc' _];
      intros Eyb.
    + discriminate.
    + injection Eyb as -> ->. destruct (IH m c Hbc') as (k & Hk & He).
      exists k. split; [lia | exact He].
    + destruct (IHc Eyb) as (k & Hk & He).
      exists (S k). split; [lia | apply edits_insert, He].
    + injection Eyb as -> ->. destruct (IH m c Hbc') as (k & Hk & He).
      exists (S k). split; [lia | apply edits_insert, He].
    + injection Eyb as -> ->. destruct (IH m c Hbc') as (k & Hk & He).
      exists (S k). split; [lia | apply edits_insert, He].
  - remember (x :: b) as xb eqn:Exb. revert Exb.
    induction Hbc as [|m z b' c Hbc' _|m z b' c _ IHc|m z b' c Hbc' _|m z w b' c Hbc' _];
      intros Exb.
    + discriminate.
    + injection Exb as -> ->. destruct (IH m c Hbc') as (k & Hk & He).
      exists (S k). split; [lia | apply edits_delete, He].
    + destruct (IHc Exb) as (k & Hk & He).
      exists (S k). split; [lia | apply edits_insert, He].
    + injection Exb as -> ->. destruct (IH m c Hbc') as (k & Hk & He).
      exists k. split; [lia | apply edits_keep, He].
    + injection Exb as -> ->. destruct (IH m c Hbc') as (k & Hk & He).
      exists (S k). split; [lia | apply edits_replace, He].
  - remember (y :: b) as yb eqn:Eyb. revert Eyb.
    induction Hbc as [|m z b' c Hbc' _|m z b' c _ IHc|m z b' c Hbc' _|m z w b' c Hbc' _];
      intros Eyb.
    + discriminate.
    + injection Eyb as -> ->. destruct (IH m c Hbc') as (k & Hk & He).
      exists (S k). split; [lia | apply edits_delete, He].
    + destruct (IHc Eyb) as (k & Hk & He).
      exists (S k). split; [lia | apply edits_insert, He].
    + injection Eyb as -> ->. destruct (IH m c Hbc') as (k & Hk & He).
      exists (S k). split; [lia | apply edits_replace, He].
    + injection Eyb as -> ->. destruct (IH m c Hbc') as (k & Hk & He).
      exists (S k). split; [lia | apply edits_replace, He].
Qed.

Lemma edits_snoc_delete n a b x : edits n a b -> edits (S n) (a ++ [x]) b.
Proof.
  induction 1; simpl.
  - apply edits_delete, edits_nil.
  - apply edits_delete. assumption.
  - apply edits_insert. assumption.
  - apply edits_keep. assumption.
  - apply edits_replace. assumption.
Qed.

Lemma edits_snoc_insert n a b y : edits n a b -> edits (S n) a (b ++ [y]).
Proof.
  induction 1; simpl.
  - apply edits_insert, edits_nil.
  - apply edits_delete. assumption.
  - apply edits_insert. assumption.
  - apply edits_keep. assumption.
  - apply edits_replace. assumption.
Qed.

Lemma edits_snoc_keep n a b x : edits n a b -> edits n (a ++ [x]) (b ++ [x]).
Proof.
  induction 1; simpl.
  - apply edits_keep, edits_nil.
  - apply edits_delete. assumption.
  - apply edits_insert. assumption.
  - apply edits_keep. assumption.
  - apply edits_replace. assumption.
Qed.

Lemma edits_snoc_replace n a b x y :
  edits n a b -> edits (S n) (a ++ [x]) (b ++ [y]).
Proof.
  induction 1; simpl.
  - apply edits_replace, edits_nil.
  - apply edits_delete. assumption.
  - apply edits_insert. assumption.
  - apply edits_keep. assumption.
  - apply edits_replace. assumption.
Qed.

(** Edits can be read from either end. *)
Lemma edits_rev n a b : edits n a b -> edits n (rev a) (rev b).
Proof.
  induction 1; simpl.
  - constructor.
  - apply edits_snoc_delete. assumption.
  - apply edits_snoc_insert. assumption.
  - apply edits_snoc_keep. assumption.
  - apply edits_snoc_replace. assumption.
Qed.

Lemma edits_rev_iff n a b : edits n (rev a) (rev b) <-> edits n a b.
Proof.
  split; [|apply edits_rev].
  intros H. apply edits_rev in H. rewrite !rev_involutive in H. exact H.
Qed.

Context `{U : Unicode}.

Lemma levenshtein_lev_front a b :
  levenshtein a b = lev_front (rev (normalize a)) (rev (normalize b)).
Proof.
  rewrite levenshtein_lev, lev_lev_front by lia.
  rewrite !take_ge by lia. reflexivity.
Qed.

Lemma levenshtein_edits a b :
  edits (levenshtein a b) (normalize a) (normalize b).
Proof.
  rewrite levenshtein_lev_front. apply edits_rev_iff, edits_lev_front.
Qed.

Lemma levenshtein_le_edits n a b :
  edits n (normalize a) (normalize b) -> levenshtein a b <= n.
Proof.
  intros H. rewrite levenshtein_lev_front.
  apply lev_front_least, edits_rev, H.
Qed.

End Edits.

(** X1.  [levenshtein] returns the least number of deletions, insertions
    and replacements of single code units that turn the one normalized
    string into the other. *)
Theorem levenshtein_least_edits `{U : Unicode} (a b : jsstring) :
  edits (levenshtein a b) (normalize a) (normalize b)
  /\ (forall n, edits n (normalize a) (normalize b) -> (levenshtein a b <= n)%nat).
Proof.
  split; [apply levenshtein_edits | intros n; apply levenshtein_le_edits].
Qed.

Lemma levenshtein_least_edits_witness :
  edits 1 (@normalize runtime_model (js "metropolitana"))
          (@normalize runtime_model (js "metropolotana"))
  /\ (@levenshtein runtime_model (js "metropolitana") (js "metropolotana") <= 1)%nat.
Proof.
  assert (H : edits 1 (@normalize runtime_model (js "metropolitana"))
                      (@normalize runtime_model (js "metropolotana"))).
  { vm_compute. do 8 apply edits_keep. apply edits_replace.
    do 4 apply edits_keep. apply edits_nil. }
  split; [exact H|].
  exact (proj2 (@levenshtein_least_edits runtime_model
                  (js "metropolitana") (js "metropolotana")) 1%nat H).
Defined.

(** X2.  [levenshtein] satisfies the triangle inequality. *)
Theorem levenshtein_triangle `{U : Unicode} (a b c : jsstring) :
  (levenshtein a c <= levenshtein a b + levenshtein b c)%nat.
Proof.
  destruct (edits_compose _ _ _ (levenshtein_edits a b) _ _ (levenshtein_edits b c))
    as (k & Hk & He).
  apply levenshtein_le_edits in He. lia.
Qed.

(** X3.  The distance is 0 exactly when the two strings have the same
    normalized form. *)
Theorem levenshtein_zero_iff `{U : Unicode} (a b : jsstring) :
  levenshtein a b = 0%nat <-> normalize a = normalize b.
Proof.
  rewrite levenshtein_lev. split.
  - intros H0. apply lev_zero in H0 as [Hlen Ht]; [|lia|lia].
    rewrite !take_ge in Ht by lia. exact Ht.
  - intros ->. apply lev_diagonal.
Qed.

(** X4.  The distance is at least the difference of the normalized lengths
    and at most the greater of them. *)
Theorem levenshtein_length_bounds `{U : Unicode} (a b : jsstring) :
  (length (normalize a) - length (normalize b) <= levenshtein a b
   /\ length (normalize b) - length (normalize a) <= levenshtein a b
   /\ levenshtein a b <= Nat.max (length (normalize a)) (length (normalize b)))%nat.
Proof.
  rewrite levenshtein_lev.
  pose proof (lev_bounds (normalize a) (normalize b)
                (length (normalize a)) (length (normalize b))). lia.
Qed.

(** ** Which inputs are resolved *)

Section Resolution.
Context `{U : Unicode}.
Local Open Scope nat_scope.

Lemma includes_length s t : includes s t = true -> length t <= length s.
Proof.
  intros H. apply includes_spec in H as (l & r & ->).
  rewrite !length_app. lia.
Qed.

Lemma fuzzy_match_lengths input regionName :
  fuzzy_match input regionName = true ->
  length (normalize input) <= length (normalize regionName) + 2
  /\ length (normalize regionName) <= length (normalize input) + 2.
Proof.
  unfold fuzzy_match. rewrite levenshtein_lev.
  rewrite !(normalize_fixed (normalize _)) by apply normalize_canonical.
  intros H. apply Nat.leb_le in H.
  pose proof (lev_bounds (normalize input) (normalize regionName)
                (length (normalize input)) (length (normalize regionName))).
  lia.
Qed.

Lemma exact_match_length input sc :
  exact_match input sc = true ->
  length (normalize input) = length (normalize (region sc)).
Proof.
  unfold exact_match. rewrite bool_decide_eq_true. intros ->. reflexivity.
Qed.

(** [findByRegionFlexible] in one formula: an exact match is contained in
    the key and at distance 0, so two clauses decide. *)
Lemma findByRegionFlexible_formula input :
  findByRegionFlexible input =
  Normal (if (6 <=? length (normalize input))
             && substring_match input (region SAMTEK)
             || fuzzy_match input (region SAMTEK)
          then Some SAMTEK else None).
Proof.
  rewrite findByRegionFlexible_qualifies.
  unfold serviceCenters, find, qualifies.
  rewrite (isAliasMatch_clauses input SAMTEK) by (left; reflexivity).
  cbn [returns_true].
  destruct (exact_match input SAMTEK) eqn:He; [|reflexivity].
  assert (Hf : fuzzy_match input (region SAMTEK) = true).
  { unfold exact_match in He. apply bool_decide_eq_true in He.
    unfold fuzzy_match. apply Nat.leb_le.
    rewrite levenshtein_lev.
    rewrite !(normalize_fixed (normalize _)) by apply normalize_canonical.
    rewrite He, lev_diagonal. lia. }
  rewrite Hf. destruct (_ && _); reflexivity.
Qed.

End Resolution.

(** X5.  Whether an input is resolved follows from the length of its
    normalized form in most cases: under 6 code units it never is; from 6
    to 29 it is exactly when the key of the region contains it; above 34 it
    is exactly when it contains the key.  (The key has 32 code units, and
    the fuzzy clause needs lengths that differ by 2 at most.) *)
Theorem resolution_by_length `{U : Unicode} (input : jsstring) :
  let key := js "region metropolitana de santiago" in
  ((length (normalize input) < 6)%nat ->
     findByRegionFlexible input = Normal None)
  /\ ((6 <= length (normalize input) < 30)%nat ->
      findByRegionFlexible input
      = Normal (if includes key (normalize input) then Some SAMTEK else None))
  /\ ((34 < length (normalize input))%nat ->
      findByRegionFlexible input
      = Normal (if includes (normalize input) key then Some SAMTEK else None)).
Proof.
  intros key. rewrite findByRegionFlexible_formula.
  pose proof (fuzzy_match_lengths input (region SAMTEK)) as Hf.
  unfold substring_match. rewrite SAMTEK_key in *. fold key in Hf |- *.
  assert (Hk : length key = 32%nat) by reflexivity. rewrite Hk in Hf.
  pose proof (includes_length key (normalize input)) as H1.
  pose proof (includes_length (normalize input) key) as H2.
  rewrite Hk in H1, H2.
  split; [|split]; intros Hlen.
  - destruct (Nat.leb_spec 6 (length (normalize input))) as [Hge|_]; [lia|].
    destruct (fuzzy_match _ _); [specialize (Hf eq_refl); lia | reflexivity].
  - destruct (Nat.leb_spec 6 (length (normalize input))) as [_|Hlt]; [|lia].
    destruct (fuzzy_match _ _); [specialize (Hf eq_refl); lia|].
    destruct (includes (normalize input) key); [specialize (H2 eq_refl); lia|].
    rewrite !orb_false_r. reflexivity.
  - destruct (Nat.leb_spec 6 (length (normalize input))) as [_|Hlt]; [|lia].
    destruct (fuzzy_match _ _); [specialize (Hf eq_refl); lia|].
    destruct (includes key (normalize input)); [specialize (H1 eq_refl); lia|].
    rewrite !orb_false_r. reflexivity.
Qed.

Lemma resolution_by_length_witness :
  (length (@normalize runtime_model (js "Stgo.")) < 6)%nat
  /\ @findByRegionFlexible runtime_model (js "Stgo.") = Normal None.
Proof.
  assert (H : (length (@normalize runtime_model (js "Stgo.")) < 6)%nat)
    by (vm_compute; lia).
  split; [exact H|].
  exact (proj1 (@resolution_by_length runtime_model (js "Stgo.")) H).
Defined.

(** ** Case and accents of Latin-1 text *)

(** The lower-case base letter of a Latin-1 letter: what [toLowerCase],
    NFD and the removal of the marks leave of it. *)
Definition base_latin1 (c : N) : N :=
  match decompose_latin1 (lower_latin1 c) with
  | x :: _ => x
  | [] => c
  end.

Lemma base_latin1_steps c :
  c < 0x100 ->
  strip_marks (decompose_latin1 (lower_latin1 c)) = [base_latin1 c].
Proof.
  intros Hc.
  apply (bool_decide_eq_true_1 (strip_marks (decompose_latin1 (lower_latin1 c))
                                = [base_latin1 c])).
  revert c Hc.
  apply (forall_below
    (fun c => bool_decide (strip_marks (decompose_latin1 (lower_latin1 c))
                           = [base_latin1 c])) 256).
  vm_compute. reflexivity.
Qed.

Lemma steps_base_latin1 s :
  is_latin1 s = true ->
  strip_marks (flat_map decompose_latin1 (map lower_latin1 s))
  = map base_latin1 s.
Proof.
  unfold is_latin1. induction s as [|c s IH]; simpl; [reflexivity|].
  rewrite andb_true_iff, N.ltb_lt. intros [Hc Hs].
  rewrite BasicFacts.strip_marks_app, (base_latin1_steps c Hc), (IH Hs).
  reflexivity.
Qed.

Lemma normalize_base_latin1 `{U : Unicode} s :
  is_latin1 s = true ->
  normalize s = trim (collapse_spaces (replace_symbols (map base_latin1 s))).
Proof.
  intros Hs. rewrite (normalize_on_latin1 s Hs), (steps_base_latin1 s Hs).
  reflexivity.
Qed.

Lemma findByRegionFlexible_ext `{U : Unicode} a b :
  normalize a = normalize b ->
  findByRegionFlexible a = findByRegionFlexible b.
Proof.
  intros E. rewrite !findByRegionFlexible_formula.
  unfold substring_match, fuzzy_match. rewrite E. reflexivity.
Qed.

(** X6.  Matching ignores the case and the accents of Latin-1 letters: two
    Latin-1 inputs with the same lower-case base letters have the same
    normalized form and get the same answer. *)
Theorem matching_ignores_case_and_accents `{U : Unicode} (a b : jsstring) :
  is_latin1 a = true -> is_latin1 b = true ->
  map base_latin1 a = map base_latin1 b ->
  normalize a = normalize b
  /\ findByRegionFlexible a = findByRegionFlexible b.
Proof.
  intros Ha Hb E.
  assert (Hn : normalize a = normalize b).
  { rewrite (normalize_base_latin1 a Ha), (normalize_base_latin1 b Hb), E.
    reflexivity. }
  split; [exact Hn | apply findByRegionFlexible_ext, Hn].
Qed.

Lemma matching_ignores_case_and_accents_witness :
  let shouted := js "REGI" ++ [0xD3] ++ js "N METROPOLITANA DE SANTIAGO" in
  let plain := js "region metropolitana de santiago" in
  is_latin1 shouted = true /\ is_latin1 plain = true
  /\ map base_latin1 shouted = map base_latin1 plain
  /\ @findByRegionFlexible runtime_model shouted
     = @findByRegionFlexible runtime_model plain.
Proof.
  intros shouted plain.
  split; [reflexivity|]. split; [reflexivity|]. split; [reflexivity|].
  apply (@matching_ignores_case_and_accents runtime_model shouted plain);
    reflexivity.
Defined.

(** ** The two [normalize] functions *)

Section TwoNormalizers.

Definition all_spaces (w : jsstring) : bool := forallb is_space w.

Lemma replace_symbols_app s t :
  replace_symbols (s ++ t) = replace_symbols s ++ replace_symbols t.
Proof. apply map_app. Qed.

Lemma replace_symbols_spaces w : all_spaces w = true -> replace_symbols w = w.
Proof.
  induction w as [|c w IH]; simpl; [reflexivity|].
  rewrite andb_true_iff. intros [Hc Hw].
  rewrite Hc, orb_true_r, (IH Hw). reflexivity.
Qed.

Lemma trimStart_split t :
  exists w, all_spaces w = true /\ t = w ++ trimStart t.
Proof.
  induction t as [|c t (w & Hw & IH)]; [exists []; split; reflexivity|].
  simpl. destruct (is_space c) eqn:E.
  - exists (c :: w). split; [simpl; rewrite E, Hw; reflexivity|].
    simpl. rewrite <- IH. reflexivity.
  - exists []. split; reflexivity.
Qed.

Lemma trimEnd_split t :
  exists w, all_spaces w = true /\ t = trimEnd t ++ w.
Proof.
  induction t as [|c t (w & Hw & IH)]; [exists []; split; reflexivity|].
  simpl. destruct (trimEnd t) as [|d r] eqn:Er.
  - simpl in IH. subst w. destruct (is_space c) eqn:E.
    + exists (c :: t). split; [simpl; rewrite E, Hw; reflexivity | reflexivity].
    + exists t. split; [exact Hw | reflexivity].
  - exists w. split; [exact Hw|]. rewrite IH at 1. reflexivity.
Qed.

Lemma trimStart_collapse_any b b' y :
  trimStart (collapse_from b y) = trimStart (collapse_from b' y).
Proof.
  destruct y as [|c y]; [reflexivity|]. simpl.
  destruct (is_space c) eqn:E; [|simpl; rewrite E; reflexivity].
  destruct b, b'; reflexivity.
Qed.

Lemma trimStart_collapse_spaces b w y :
  all_spaces w = true ->
  trimStart (collapse_from b (w ++ y)) = trimStart (collapse_from b y).
Proof.
  revert b. induction w as [|c w IH]; intros b; [reflexivity|].
  simpl. rewrite andb_true_iff. intros [Hc Hw]. rewrite Hc.
  rewrite (trimStart_collapse_any b true y), <- (IH true Hw).
  destruct b; reflexivity.
Qed.

Lemma collapse_spaces_only b w :
  all_spaces w = true -> all_spaces (collapse_from b w) = true.
Proof.
  revert b. induction w as [|c w IH]; intros b; [reflexivity|].
  simpl. rewrite andb_true_iff. intros [Hc Hw]. rewrite Hc.
  destruct b; [apply IH, Hw|]. simpl. apply IH, Hw.
Qed.

Lemma collapse_app_spaces b y w :
  all_spaces w = true ->
  exists e, all_spaces e = true
            /\ collapse_from b (y ++ w) = collapse_from b y ++ e.
Proof.
  intros Hw. revert b. induction y as [|c y IH]; intros b.
  - exists (collapse_from b w). split; [apply collapse_spaces_only, Hw | reflexivity].
  - simpl. destruct (is_space c).
    + destruct (IH true) as (e & He & ->). exists e. split; [exact He|].
      destruct b; reflexivity.
    + destruct (IH false) as (e & He & ->). exists e. split; [exact He|].
      reflexivity.
Qed.

Lemma trimEnd_spaces e : all_spaces e = true -> trimEnd e = [].
Proof.
  induction e as [|c e IH]; [reflexivity|]. simpl.
  rewrite andb_true_iff. intros [Hc He]. rewrite (IH He), Hc. reflexivity.
Qed.

Lemma trimEnd_app_spaces z e :
  all_spaces e = true -> trimEnd (z ++ e) = trimEnd z.
Proof.
  intros He. induction z as [|c z IH]; [apply trimEnd_spaces, He|].
  simpl. rewrite IH. reflexivity.
Qed.

Lemma trimStart_spaces e : all_spaces e = true -> trimStart e = [].
Proof.
  induction e as [|c e IH]; [reflexivity|]. simpl.
  rewrite andb_true_iff. intros [Hc He]. rewrite Hc. apply IH, He.
Qed.

Lemma trim_app_spaces z e : all_spaces e = true -> trim (z ++ e) = trim z.
Proof.
  intros He. unfold trim. induction z as [|c z IH].
  - simpl. rewrite (trimStart_spaces e He). reflexivity.
  - simpl. destruct (is_space c); [exact IH|].
    apply (trimEnd_app_spaces (c :: z) e He).
Qed.

Lemma later_steps_drop_start w y :
  all_spaces w = true ->
  trim (collapse_spaces (replace_symbols (w ++ y)))
  = trim (collapse_spaces (replace_symbols y)).
Proof.
  intros Hw. rewrite replace_symbols_app, (replace_symbols_spaces w Hw).
  unfold collapse_spaces, trim.
  rewrite (trimStart_collapse_spaces false w _ Hw). reflexivity.
Qed.

Lemma later_steps_drop_end y w :
  all_spaces w = true ->
  trim (collapse_spaces (replace_symbols (y ++ w)))
  = trim (collapse_spaces (replace_symbols y)).
Proof.
  intros Hw. rewrite replace_symbols_app, (replace_symbols_spaces w Hw).
  unfold collapse_spaces.
  destruct (collapse_app_spaces false (replace_symbols y) w Hw) as (e & He & ->).
  apply trim_app_spaces, He.
Qed.

(** The symbol and white-space steps give the same on a string and on the
    string trimmed. *)
Lemma later_steps_trim t :
  trim (collapse_spaces (replace_symbols (trim t)))
  = trim (collapse_spaces (replace_symbols t)).
Proof.
  destruct (trimStart_split t) as (w1 & Hw1 & E1).
  destruct (trimEnd_split (trimStart t)) as (w2 & Hw2 & E2).
  fold (trim t) in E2.
  rewrite <- (later_steps_drop_end (trim t) w2 Hw2), <- E2.
  rewrite <- (later_steps_drop_start w1 (trimStart t) Hw1), <- E1.
  reflexivity.
Qed.

End TwoNormalizers.

Lemma normalize_after_basic `{U : Unicode} s :
  normalize s = trim (collapse_spaces (replace_symbols (Basic.normalize s))).
Proof. unfold Basic.normalize. rewrite later_steps_trim. reflexivity. Qed.

(** X7.  The flexible [normalize] is the [normalize] of [src/index.js]
    followed by the symbol and white-space steps; so two strings that the
    exact-only variant takes for equal are equal for the flexible matcher
    too, and get the same answer from it. *)
Theorem flexible_normalize_refines_basic `{U : Unicode} :
  (forall s,
     normalize s
     = trim (collapse_spaces (replace_symbols (Basic.normalize s))))
  /\ (forall a b,
        Basic.normalize a = Basic.normalize b ->
        normalize a = normalize b
        /\ findByRegionFlexible a = findByRegionFlexible b).
Proof.
  assert (H : forall s,
            normalize s
            = trim (collapse_spaces (replace_symbols (Basic.normalize s)))).
  { intros s. apply normalize_after_basic. }
  split; [exact H|].
  intros a b E.
  assert (Hn : normalize a = normalize b) by (rewrite (H a), (H b), E; reflexivity).
  split; [exact Hn | apply findByRegionFlexible_ext, Hn].
Qed.

Lemma flexible_normalize_refines_basic_witness :
  let a := js "  Regi" ++ [0xF3] ++ js "n Metropolitana de Santiago " in
  @Basic.normalize runtime_model a = @Basic.normalize runtime_model (region SAMTEK)
  /\ @findByRegionFlexible runtime_model a
     = @findByRegionFlexible runtime_model (region SAMTEK).
Proof.
  intros a.
  assert (E : @Basic.normalize runtime_model a
              = @Basic.normalize runtime_model (region SAMTEK))
    by (vm_compute; reflexivity).
  split; [exact E|].
  exact (proj2 (proj2 (@flexible_normalize_refines_basic runtime_model)
                  a (region SAMTEK) E)).
Defined.

(** * The HTTP boundary

    The handlers of the two applications, as functions from the request and
    the environment of the process to what is sent.  Logging to the console
    is left out; an exception that leaves a handler is what Express answers
    with status 500. *)

(** ** Exceptions *)

Inductive js_error : Type := TypeError | URIError.

Inductive outcome (A : Type) : Type :=
  | Returned (v : A)
  | Threw (e : js_error).
Arguments Returned {A} v.
Arguments Threw {A} e.

#[export] Instance outcome_bind : MBind outcome :=
  fun A B f c => match c with Returned v => f v | Threw e => Threw e end.

Definition of_completion {A : Type} (c : completion A) : outcome A :=
  match c with
  | Normal v => Returned v
  | ThrowTypeError => Threw TypeError
  end.

(** ** [encodeURIComponent] of the runtime (ECMA-262, Encode) *)

(** The code units left as they are: letters, digits and [-_.!~*'()]. *)
Definition uri_unreserved (c : N) : bool :=
  ((0x41 <=? c) && (c <=? 0x5A)) || ((0x61 <=? c) && (c <=? 0x7A))
  || ((0x30 <=? c) && (c <=? 0x39))
  || (c =? 0x2D) || (c =? 0x5F) || (c =? 0x2E) || (c =? 0x21) || (c =? 0x7E)
  || (c =? 0x2A) || (c =? 0x27) || (c =? 0x28) || (c =? 0x29).

Definition is_high_surrogate (c : N) : bool := (0xD800 <=? c) && (c <=? 0xDBFF).
Definition is_low_surrogate (c : N) : bool := (0xDC00 <=? c) && (c <=? 0xDFFF).

Definition code_point (hi lo : N) : N :=
  (hi - 0xD800) * 0x400 + (lo - 0xDC00) + 0x10000.

(** The UTF-8 octets of a code point. *)
Definition utf8 (cp : N) : list N :=
  if cp <? 0x80 then [cp]
  else if cp <? 0x800 then [0xC0 + cp / 0x40; 0x80 + cp mod 0x40]
  else if cp <? 0x10000
  then [0xE0 + cp / 0x1000; 0x80 + (cp / 0x40) mod 0x40; 0x80 + cp mod 0x40]
  else [0xF0 + cp / 0x40000; 0x80 + (cp / 0x1000) mod 0x40;
        0x80 + (cp / 0x40) mod 0x40; 0x80 + cp mod 0x40].

(** One of [0-9A-F]. *)
Definition hex_digit (n : N) : N := if n <? 10 then 0x30 + n else 0x41 + (n - 10).

(** [%XX] for an octet; the high digit is taken modulo 16, which changes
    nothing on an octet. *)
Definition percent (b : N) : list N :=
  [0x25; hex_digit ((b / 16) mod 16); hex_digit (b mod 16)].

Fixpoint encodeURIComponent (s : jsstring) : outcome jsstring :=
  match s with
  | [] => Returned []
  | c :: s' =>
      if uri_unreserved c then
        r ← encodeURIComponent s'; Returned (c :: r)
      else if is_low_surrogate c then Threw URIError
      else if is_high_surrogate c then
        match s' with
        | d :: s'' =>
            if is_low_surrogate d then
              r ← encodeURIComponent s'';
              Returned (flat_map percent (utf8 (code_point c d)) ++ r)
            else Threw URIError
        | [] => Threw URIError
        end
      else
        r ← encodeURIComponent s'; Returned (flat_map percent (utf8 c) ++ r)
  end.

(** ** Requests, environment, responses *)

(** A value found in the body or the query of a request: a string, or
    anything else (undefined, null, a boolean, a number, an array, an
    object) with what the handlers can observe of it, its truthiness and
    its conversion to a string.  The conversion throws a [TypeError] on an
    object that has neither a [toString] nor a [valueOf] to call, as the
    query parser of Express 4 builds for [address[toString]=x]: there
    [text] is [None]. *)
Inductive js_value : Type :=
  | JsString (s : jsstring)
  | JsOther (truthy : bool) (text : option jsstring).

Definition js_undefined : js_value := JsOther false (Some (js "undefined")).

Record environment := {
  BASE_URL : option jsstring;
  PORT : option jsstring
}.

Record request := {
  header_x_forwarded_proto : option jsstring;
  protocol : jsstring;
  header_host : option jsstring;
  (* [req.body]: undefined when no body was parsed ([None]), else an object
     or an array, given by the value of its [region] property *)
  body : option js_value;
  (* [req.query] is an object for every request *)
  query_region : js_value;
  query_address : js_value
}.

(** [req.body?.region] *)
Definition body_region (req : request) : js_value :=
  match body req with
  | Some region => region
  | None => js_undefined
  end.

Record center := {
  center_name : jsstring;
  center_address : jsstring;
  center_products : jsstring;
  center_imageUrl : option jsstring;
  center_mapLink : jsstring;
  center_addressLink : jsstring;
  center_embedUrl : jsstring
}.

Inductive json : Type :=
  | ErrorJson (error : jsstring) (hint example : option jsstring)
              (expectedRegions : option (list jsstring))
  | CentersJson (centers : list center)
  | HealthJson (status : jsstring) (regionsConfigured : nat)
               (regions : list jsstring)
  | Html (text : jsstring).

Record response := {
  status : N;
  payload : json
}.

Definition QUOTE : jsstring := [0x22].
Definition NEWLINE : jsstring := [0x0A].
Definition SLASH : N := 0x2F.

(** ** The flexible application *)

(** [/^https?:\/\//i.test(envBase)]: without the [u] flag the letters of
    the pattern match their ASCII upper case only. *)
Definition ascii_lower (c : N) : N :=
  if (0x41 <=? c) && (c <=? 0x5A) then c + 0x20 else c.

Definition has_http_scheme (s : jsstring) : bool :=
  startsWith (map ascii_lower s) (js "http://")
  || startsWith (map ascii_lower s) (js "https://").

(** [.replace(/\/+$/, '')] *)
Fixpoint strip_trailing_slashes (s : jsstring) : jsstring :=
  match s with
  | [] => []
  | c :: s' =>
      match strip_trailing_slashes s' with
      | [] => if c =? SLASH then [] else [c]
      | r => c :: r
      end
  end.

(** [a || b] where [a] is a string or undefined: the empty string is
    falsy. *)
Definition or_else (a : option jsstring) (b : jsstring) : jsstring :=
  match a with
  | Some ((_ :: _) as s) => s
  | _ => b
  end.

Definition getBaseUrl (env : environment) (req : request) : jsstring :=
  let from_request :=
    let proto :=
      or_else (header_x_forwarded_proto req)
              (or_else (Some (protocol req)) (js "http")) in
    (* an absent Host header prints as [undefined] *)
    let host := default (js "undefined") (header_host req) in
    proto ++ js "://" ++ host in
  match BASE_URL env with
  | Some ((_ :: _) as envBase) =>
      if has_http_scheme envBase then strip_trailing_slashes envBase
      else from_request
  | _ => from_request
  end.

Definition buildImageUrl (env : environment) (req : request) (fileName : jsstring)
  : outcome (option jsstring) :=
  match fileName with
  | [] => Returned None
  | _ =>
      let base := getBaseUrl env req in
      e ← encodeURIComponent fileName;
      Returned (Some (base ++ js "/images/" ++ e))
  end.

Definition health : response :=
  {| status := 200;
     payload := HealthJson (js "ok") (length serviceCenters)
                           (map region serviceCenters) |}.

(** The response that both [/nearest] handlers send for a match. *)
Definition centers_response (env : environment) (req : request)
    (m : ServiceCenter) : outcome response :=
  imageUrl ← buildImageUrl env req (image m);
  enc ← encodeURIComponent (address m);
  Returned
    {| status := 200;
       payload := CentersJson
         [ {| center_name := name m;
              center_address := address m;
              center_products := products m;
              center_imageUrl := imageUrl;
              center_mapLink :=
                js "https://www.google.com/maps/dir/?api=1&destination=" ++ enc;
              center_addressLink :=
                js "https://www.google.com/maps/search/?api=1&query=" ++ enc;
              center_embedUrl :=
                js "https://maps.google.com/maps?q=" ++ enc ++ js "&output=embed"
           |} ] |}.

Definition not_found_message (rawRegion : jsstring) : jsstring :=
  js "No service center found for region: " ++ QUOTE ++ rawRegion ++ QUOTE.

(** The answers of [POST /nearest] to a bad payload and to a region that is
    not found. *)
Definition post_invalid : response :=
  {| status := 422;
     payload := ErrorJson
       (js "Invalid payload. Send JSON like: { " ++ QUOTE ++ js "region"
        ++ QUOTE ++ js ": " ++ QUOTE ++ js "Regi" ++ [o_acute]
        ++ js "n Metropolitana de Santiago" ++ QUOTE ++ js " }")
       None None (Some (map region serviceCenters)) |}.

Definition post_not_found (rawRegion : jsstring) : response :=
  {| status := 404;
     payload := ErrorJson (not_found_message rawRegion)
       (Some (js "Revisa acentos/espacios o usa una variante reconocida."))
       None (Some (map region serviceCenters)) |}.

Definition post_nearest `{Unicode} (env : environment) (req : request)
  : outcome response :=
  match body_region req with
  | JsString ((_ :: _) as rawRegion) =>
      m ← of_completion (findByRegionFlexible rawRegion);
      match m with
      | None => Returned (post_not_found rawRegion)
      | Some m => centers_response env req m
      end
  | _ => Returned post_invalid
  end.

(** The same for [GET /nearest]. *)
Definition get_invalid : response :=
  {| status := 422;
     payload := ErrorJson (js "Missing ?region=... query parameter") None
       (Some (js "/nearest?region=Regi" ++ [o_acute]
              ++ js "n%20Metropolitana%20de%20Santiago"))
       (Some (map region serviceCenters)) |}.

Definition get_not_found (rawRegion : jsstring) : response :=
  {| status := 404;
     payload := ErrorJson (not_found_message rawRegion) None None
                          (Some (map region serviceCenters)) |}.

Definition get_nearest `{Unicode} (env : environment) (req : request)
  : outcome response :=
  match query_region req with
  | JsString ((_ :: _) as rawRegion) =>
      m ← of_completion (findByRegionFlexible rawRegion);
      match m with
      | None => Returned (get_not_found rawRegion)
      | Some m => centers_response env req m
      end
  | _ => Returned get_invalid
  end.

(** [req.query.address || ''], converted to a string by
    [encodeURIComponent]. *)
Definition address_text (v : js_value) : outcome jsstring :=
  match v with
  | JsString s => Returned s
  | JsOther true (Some text) => Returned text
  | JsOther true None => Threw TypeError
  | JsOther false _ => Returned []
  end.

Definition map_page_head : jsstring :=
  js "<!DOCTYPE html><html><head><meta charset=" ++ QUOTE ++ js "UTF-8" ++ QUOTE
  ++ js "/>" ++ NEWLINE ++ js "<title>Mapa</title>" ++ NEWLINE
  ++ js "<style>html,body{margin:0;height:100%}iframe{width:100%;height:100%;border:none}</style>"
  ++ NEWLINE ++ js "</head><body>" ++ NEWLINE
  ++ js "<iframe src=" ++ QUOTE ++ js "https://maps.google.com/maps?q=".

Definition map_page_tail : jsstring :=
  js "&output=embed" ++ QUOTE ++ js "></iframe>" ++ NEWLINE ++ js "</body></html>".

Definition get_map (req : request) : outcome response :=
  text ← address_text (query_address req);
  enc ← encodeURIComponent text;
  Returned {| status := 200; payload := Html (map_page_head ++ enc ++ map_page_tail) |}.

(** ** The application of [src/index.js] *)

Module BasicApp.

(** [process.env.PORT || 3000], as the template literal prints it. *)
Definition port (env : environment) : jsstring :=
  or_else (PORT env) (js "3000").

(** [process.env.BASE_URL || `http://localhost:${port}`] *)
Definition base_url (env : environment) : jsstring :=
  or_else (BASE_URL env) (js "http://localhost:" ++ port env).

Record ServiceCenter := {
  region : jsstring;
  name : jsstring;
  address : jsstring;
  products : jsstring;
  imageUrl : jsstring
}.

Definition SAMTEK (env : environment) : ServiceCenter :=
  {| region := js "Regi" ++ [o_acute] ++ js "n Metropolitana de Santiago";
     name := js "SAMTEK";
     address :=
       js "Nueva Tajamar 481, Torre Sur, Oficina 1601. Las Condes (265.2km)";
     products := js "Notebook, Desktop PC, All-in-one PCs, Eee Pad, Eee";
     imageUrl := base_url env ++ js "/images/samtek.png" |}.

Definition serviceCenters (env : environment) : list ServiceCenter :=
  [SAMTEK env].

(** [normalize(req.body.region || '')]: reading [region] of a body that is
    undefined throws, and a truthy value that is no string has no
    [toLowerCase] to call. *)
Definition region_input `{Unicode} (body : option js_value) : outcome jsstring :=
  match body with
  | None => Threw TypeError
  | Some (JsString s) => Returned (Basic.normalize s)
  | Some (JsOther true _) => Threw TypeError
  | Some (JsOther false _) => Returned (Basic.normalize [])
  end.

Definition not_found : response :=
  {| status := 404;
     payload := ErrorJson (js "No service center found for that region.")
                          None None None |}.

Definition post_nearest `{Unicode} (env : environment) (req : request)
  : outcome response :=
  regionInput ← region_input (body req);
  match find (fun sc => bool_decide (Basic.normalize (region sc) = regionInput))
             (serviceCenters env) with
  | None => Returned not_found
  | Some m =>
      enc ← encodeURIComponent (address m);
      Returned
        {| status := 200;
           payload := CentersJson
             [ {| center_name := name m;
                  center_address := address m;
                  center_products := products m;
                  center_imageUrl := Some (imageUrl m);
                  center_mapLink :=
                    js "https://www.google.com/maps/dir/?api=1&destination=" ++ enc;
                  center_addressLink :=
                    js "https://www.google.com/maps/search/?api=1&query=" ++ enc;
                  center_embedUrl :=
                    js "https://maps.google.com/maps?q=" ++ enc
                    ++ js "&output=embed"
               |} ] |}
  end.

End BasicApp.

(** * Properties of the HTTP boundary *)

(** ** [encodeURIComponent] *)

(** What an encoded string is made of: unreserved code units and [%]. *)
Definition uri_safe (c : N) : bool := uri_unreserved c || (c =? 0x25).

(** No surrogate without its partner. *)
Fixpoint well_formed (s : jsstring) : bool :=
  match s with
  | [] => true
  | c :: s' =>
      if is_low_surrogate c then false
      else if is_high_surrogate c then
        match s' with
        | d :: s'' => is_low_surrogate d && well_formed s''
        | [] => false
        end
      else well_formed s'
  end.

Lemma hex_digit_unreserved n : uri_unreserved (hex_digit (n mod 16)) = true.
Proof.
  apply (forall_below (fun k => uri_unreserved (hex_digit k)) 16).
  - vm_compute. reflexivity.
  - apply N.mod_upper_bound. discriminate.
Qed.

Lemma percent_safe b : forallb uri_safe (percent b) = true.
Proof.
  unfold percent. cbn [forallb]. unfold uri_safe at 2 3.
  rewrite !hex_digit_unreserved. reflexivity.
Qed.

Lemma percents_safe l : forallb uri_safe (flat_map percent l) = true.
Proof.
  induction l as [|b l IH]; [reflexivity|].
  cbn [flat_map]. rewrite forallb_app, percent_safe, IH. reflexivity.
Qed.

Lemma unreserved_not_surrogate c :
  uri_unreserved c = true ->
  is_low_surrogate c = false /\ is_high_surrogate c = false.
Proof.
  unfold uri_unreserved, is_low_surrogate, is_high_surrogate.
  rewrite !orb_true_iff, !andb_true_iff, !N.leb_le, !N.eqb_eq.
  intros H. split; apply andb_false_iff; rewrite !N.leb_gt; lia.
Qed.

(** Facts about [encodeURIComponent] are proved for a string and for the
    string with one more code unit in front, since a surrogate pair is taken
    two code units at a time. *)
Lemma encodeURIComponent_facts s :
  let fact s :=
    (forall e, encodeURIComponent s = Returned e -> forallb uri_safe e = true)
    /\ (forall err, encodeURIComponent s = Threw err -> err = URIError)
    /\ ((exists e, encodeURIComponent s = Returned e) <-> well_formed s = true) in
  fact s /\ forall c, fact (c :: s).
Proof.
  intros fact.
  assert (Hnil : fact []).
  { split; [|split].
    - intros e [= <-]. reflexivity.
    - intros err [=].
    - split; [reflexivity | exists []; reflexivity]. }
  assert (Hstep : forall c s', fact s' ->
            is_high_surrogate c = false \/ uri_unreserved c = true ->
            fact (c :: s')).
  { intros c s' (Hsafe & Herr & Hwf) Hc. unfold fact. cbn [encodeURIComponent well_formed].
    destruct (uri_unreserved c) eqn:Eu.
    - destruct (unreserved_not_surrogate c Eu) as [-> ->].
      destruct (encodeURIComponent s') as [r|e0] eqn:Er; cbn.
      + split; [|split].
        * intros e [= <-]. cbn [forallb]. unfold uri_safe at 1.
          rewrite Eu, (Hsafe r eq_refl). reflexivity.
        * intros err [=].
        * rewrite <- Hwf. split; intros _; eauto.
      + split; [|split].
        * intros e [=].
        * intros err [= <-]. apply (Herr e0 eq_refl).
        * rewrite <- Hwf. split; intros [e He]; discriminate.
    - destruct Hc as [Hh|Hu]; [|discriminate].
      destruct (is_low_surrogate c) eqn:El.
      + split; [|split].
        * intros e [=].
        * intros err [= <-]. reflexivity.
        * split; [intros [e He]; discriminate | discriminate].
      + rewrite Hh.
        destruct (encodeURIComponent s') as [r|e0] eqn:Er; cbn.
        * split; [|split].
          -- intros e [= <-]. rewrite forallb_app, percents_safe, (Hsafe r eq_refl).
             reflexivity.
          -- intros err [=].
          -- rewrite <- Hwf. split; intros _; eauto.
        * split; [|split].
          -- intros e [=].
          -- intros err [= <-]. apply (Herr e0 eq_refl).
          -- rewrite <- Hwf. split; intros [e He]; discriminate. }
  induction s as [|d s [IHs IHc]].
  - split; [exact Hnil|]. intros c.
    destruct (is_high_surrogate c) eqn:Eh; [|apply Hstep; auto].
    unfold fact. cbn [encodeURIComponent well_formed].
    destruct (uri_unreserved c) eqn:Eu;
      [destruct (unreserved_not_surrogate c Eu); congruence|].
    rewrite Eh. destruct (is_low_surrogate c).
    + split; [|split]; [intros e [=] | intros err [= <-]; reflexivity |].
      split; [intros [e He]; discriminate | discriminate].
    + split; [|split]; [intros e [=] | intros err [= <-]; reflexivity |].
      split; [intros [e He]; discriminate | discriminate].
  - split; [apply IHc|]. intros c.
    destruct (is_high_surrogate c) eqn:Eh; [|apply Hstep; [apply IHc | auto]].
    unfold fact. cbn [encodeURIComponent well_formed].
    destruct (uri_unreserved c) eqn:Eu;
      [destruct (unreserved_not_surrogate c Eu); congruence|].
    rewrite Eh. destruct (is_low_surrogate c).
    + split; [|split]; [intros e [=] | intros err [= <-]; reflexivity |].
      split; [intros [e He]; discriminate | discriminate].
    + destruct (is_low_surrogate d).
      * destruct IHs as (Hsafe & Herr & Hwf).
        destruct (encodeURIComponent s) as [r|e0] eqn:Er; cbn.
        -- split; [|split].
           ++ intros e [= <-]. rewrite forallb_app, percents_safe, (Hsafe r eq_refl).
              reflexivity.
           ++ intros err [=].
           ++ rewrite <- Hwf. split; intros _; eauto.
        -- split; [|split].
           ++ intros e [=].
           ++ intros err [= <-]. apply (Herr e0 eq_refl).
           ++ rewrite <- Hwf. split; intros [e He]; discriminate.
      * split; [|split]; [intros e [=] | intros err [= <-]; reflexivity |].
        split; [intros [e He]; discriminate | discriminate].
Qed.

Lemma encodeURIComponent_safe s e :
  encodeURIComponent s = Returned e -> forallb uri_safe e = true.
Proof. apply (proj1 (encodeURIComponent_facts s)). Qed.

Lemma encodeURIComponent_error s err :
  encodeURIComponent s = Threw err -> err = URIError.
Proof. apply (proj1 (encodeURIComponent_facts s)). Qed.

Lemma encodeURIComponent_returns s :
  (exists e, encodeURIComponent s = Returned e) <-> well_formed s = true.
Proof. apply (proj1 (encodeURIComponent_facts s)). Qed.

Lemma encodeURIComponent_unreserved s :
  forallb uri_unreserved s = true -> encodeURIComponent s = Returned s.
Proof.
  induction s as [|c s IH]; [reflexivity|]. cbn [forallb encodeURIComponent].
  rewrite andb_true_iff. intros [-> Hs]. rewrite (IH Hs). reflexivity.
Qed.

Lemma uri_safe_excludes e c :
  forallb uri_safe e = true -> uri_safe c = false -> ~ In c e.
Proof.
  intros He Hc Hin. rewrite forallb_forall in He.
  rewrite (He c Hin) in Hc. discriminate.
Qed.

(** ** [getBaseUrl] and [buildImageUrl] *)

Lemma strip_trailing_slashes_split s :
  exists k, s = strip_trailing_slashes s ++ replicate k SLASH.
Proof.
  induction s as [|c s (k & IH)]; [exists 0%nat; reflexivity|].
  cbn [strip_trailing_slashes].
  destruct (strip_trailing_slashes s) as [|d r] eqn:Er.
  - simpl in IH. destruct (N.eqb_spec c SLASH) as [->|_].
    + exists (S k). simpl. rewrite IH at 1. reflexivity.
    + exists k. simpl. rewrite IH at 1. reflexivity.
  - exists k. rewrite IH at 1. reflexivity.
Qed.

Lemma strip_trailing_slashes_end s r :
  strip_trailing_slashes s <> r ++ [SLASH].
Proof.
  revert r. induction s as [|c s IH]; intros r; cbn [strip_trailing_slashes].
  - destruct r; discriminate.
  - destruct (strip_trailing_slashes s) as [|d t] eqn:Es.
    + destruct (N.eqb_spec c SLASH) as [->|Hc]; [destruct r; discriminate|].
      destruct r as [|x [|y r]]; try discriminate. intros [= ->]. apply Hc. reflexivity.
    + destruct r as [|x r]; [discriminate|].
      intros [= -> E]. apply (IH r). exact E.
Qed.

(** X8.  With a [BASE_URL] that starts with [http://] or [https://] (in any
    case), [getBaseUrl] does not look at the request: it returns [BASE_URL]
    without the slashes at its end, so the result never ends with a slash.
    A [BASE_URL] that is unset, empty or without such a scheme is ignored:
    the base is then [proto://host] of the request, where the protocol is
    the [X-Forwarded-Proto] header if it is set and not empty, else
    [req.protocol], else [http]. *)
Theorem getBaseUrl_sources (env : environment) (req : request) :
  (forall envBase,
     BASE_URL env = Some envBase -> has_http_scheme envBase = true ->
     getBaseUrl env req = strip_trailing_slashes envBase
     /\ (exists k, envBase = getBaseUrl env req ++ replicate k SLASH)
     /\ (forall r, getBaseUrl env req <> r ++ [SLASH]))
  /\ ((forall envBase,
         BASE_URL env = Some envBase -> has_http_scheme envBase = false) ->
      getBaseUrl env req =
      or_else (header_x_forwarded_proto req)
              (or_else (Some (protocol req)) (js "http"))
      ++ js "://" ++ default (js "undefined") (header_host req)).
Proof.
  split.
  - intros envBase HB Hs. unfold getBaseUrl. rewrite HB.
    destruct envBase as [|c b]; [discriminate|]. cbv beta zeta iota.
    rewrite Hs.
    split; [reflexivity|]. split.
    + apply strip_trailing_slashes_split.
    + apply strip_trailing_slashes_end.
  - intros Hno. unfold getBaseUrl.
    destruct (BASE_URL env) as [[|c b]|]; try reflexivity.
    cbv beta zeta iota. rewrite (Hno (c :: b) eq_refl). reflexivity.
Qed.

Lemma getBaseUrl_sources_witness :
  let env := {| BASE_URL := Some (js "HTTPS://cdn.example.com///");
                PORT := None |} in
  let req := {| header_x_forwarded_proto := None; protocol := js "http";
                header_host := Some (js "localhost:3000");
                body := None; query_region := js_undefined;
                query_address := js_undefined |} in
  has_http_scheme (js "HTTPS://cdn.example.com///") = true
  /\ getBaseUrl env req = js "HTTPS://cdn.example.com".
Proof.
  intros env req. split; [reflexivity|].
  destruct (proj1 (getBaseUrl_sources env req)
              (js "HTTPS://cdn.example.com///") eq_refl eq_refl) as [-> _].
  reflexivity.
Defined.

Lemma buildImageUrl_cons env req c f :
  buildImageUrl env req (c :: f) =
  match encodeURIComponent (c :: f) with
  | Returned e => Returned (Some (getBaseUrl env req ++ js "/images/" ++ e))
  | Threw err => Threw err
  end.
Proof. reflexivity. Qed.

(** X9.  [buildImageUrl] returns [null] for an empty file name.  Otherwise
    the URL is the base, [/images/] and the encoded file name, which holds
    unreserved code units and [%] only: no slash, question mark or hash can
    come from the file name.  A file name of unreserved code units, like
    that of the catalog, is kept as it is.  The function throws, a
    [URIError], exactly when the file name has a lone surrogate. *)
Theorem buildImageUrl_shape (env : environment) (req : request)
    (fileName : jsstring) :
  (fileName = [] -> buildImageUrl env req fileName = Returned None)
  /\ (forall r, buildImageUrl env req fileName = Returned r ->
        fileName <> [] ->
        exists e, r = Some (getBaseUrl env req ++ js "/images/" ++ e)
                  /\ encodeURIComponent fileName = Returned e
                  /\ forallb uri_safe e = true
                  /\ ~ In SLASH e /\ ~ In 0x3F e /\ ~ In 0x23 e)
  /\ (fileName <> [] -> forallb uri_unreserved fileName = true ->
      buildImageUrl env req fileName
      = Returned (Some (getBaseUrl env req ++ js "/images/" ++ fileName)))
  /\ ((exists err, buildImageUrl env req fileName = Threw err)
      <-> well_formed fileName = false)
  /\ (forall err, buildImageUrl env req fileName = Threw err -> err = URIError).
Proof.
  split; [intros ->; reflexivity|].
  destruct fileName as [|c f].
  { split; [intros r _ H; congruence|]. split; [congruence|].
    split; [|intros err [=]].
    split; [intros [err [=]] | discriminate]. }
  rewrite (buildImageUrl_cons env req c f).
  pose proof (encodeURIComponent_returns (c :: f)) as Hw.
  destruct (encodeURIComponent (c :: f)) as [e|err] eqn:Ee.
  - pose proof (encodeURIComponent_safe (c :: f) e Ee) as Hs.
    pose proof (proj1 Hw (ex_intro _ e eq_refl)) as Ht.
    split; [|split; [|split]].
    + intros r [= <-] _. exists e.
      repeat split; try assumption;
        apply (uri_safe_excludes e _ Hs); reflexivity.
    + intros _ Hu. rewrite (encodeURIComponent_unreserved (c :: f) Hu) in Ee.
      injection Ee as <-. reflexivity.
    + split; [intros [x [=]] | congruence].
    + intros err [=].
  - split; [|split; [|split]].
    + intros r [=].
    + intros _ Hu. rewrite (encodeURIComponent_unreserved (c :: f) Hu) in Ee.
      discriminate.
    + split; [|eauto]. intros _.
      destruct (well_formed (c :: f)) eqn:Et; [|reflexivity].
      destruct (proj2 Hw eq_refl) as [e He]. discriminate.
    + intros err' [= <-]. apply (encodeURIComponent_error (c :: f) _ Ee).
Qed.

Lemma buildImageUrl_shape_witness :
  let env := {| BASE_URL := None; PORT := None |} in
  let req := {| header_x_forwarded_proto := Some (js "https"); protocol := js "http";
                header_host := Some (js "api.example.com");
                body := None; query_region := js_undefined;
                query_address := js_undefined |} in
  image SAMTEK <> [] /\ forallb uri_unreserved (image SAMTEK) = true
  /\ buildImageUrl env req (image SAMTEK)
     = Returned (Some (js "https://api.example.com/images/samtek.png")).
Proof.
  intros env req.
  assert (H1 : image SAMTEK <> []) by discriminate.
  assert (H2 : forallb uri_unreserved (image SAMTEK) = true) by reflexivity.
  split; [exact H1|]. split; [exact H2|].
  rewrite (proj1 (proj2 (proj2 (buildImageUrl_shape env req (image SAMTEK)))) H1 H2).
  reflexivity.
Defined.

(** ** [/map] *)

Lemma get_map_eq req :
  get_map req =
  match address_text (query_address req) with
  | Returned text =>
      match encodeURIComponent text with
      | Returned e =>
          Returned {| status := 200;
                      payload := Html (map_page_head ++ e ++ map_page_tail) |}
      | Threw err => Threw err
      end
  | Threw err => Threw err
  end.
Proof.
  unfold get_map. destruct (address_text _); [|reflexivity].
  cbn [mbind outcome_bind]. destruct (encodeURIComponent _); reflexivity.
Qed.

Lemma address_text_error v err :
  address_text v = Threw err -> err = TypeError /\ v = JsOther true None.
Proof. destruct v as [s|[|] [text|]]; intros [=]; subst; split; reflexivity. Qed.

(** X10.  The page of [/map] is the fixed text with the encoded address in
    the [src] attribute of the frame.  The encoded address holds unreserved
    code units and [%] only, so it cannot close the attribute or start a
    tag or another parameter: it has no double quote, angle bracket, space
    or ampersand.  The handler throws in two cases and no other: a
    [TypeError] when the address is a truthy value that is no string and
    has no conversion to a string, a [URIError] when the text of the
    address has a lone surrogate. *)
Theorem map_page_is_safe (req : request) :
  (forall r, get_map req = Returned r ->
     status r = 200
     /\ exists text e,
          address_text (query_address req) = Returned text
          /\ payload r = Html (map_page_head ++ e ++ map_page_tail)
          /\ encodeURIComponent text = Returned e
          /\ forallb uri_safe e = true
          /\ ~ In 0x22 e /\ ~ In 0x3C e /\ ~ In 0x3E e /\ ~ In 0x26 e
          /\ ~ In 0x20 e)
  /\ (get_map req = Threw TypeError <-> query_address req = JsOther true None)
  /\ (get_map req = Threw URIError
      <-> exists text, address_text (query_address req) = Returned text
                       /\ well_formed text = false)
  /\ (forall text,
        address_text (query_address req) = Returned text ->
        well_formed text = true ->
        exists r, get_map req = Returned r).
Proof.
  rewrite (get_map_eq req).
  destruct (address_text (query_address req)) as [text|err] eqn:Ea.
  - pose proof (encodeURIComponent_returns text) as Hw.
    destruct (encodeURIComponent text) as [e|err] eqn:Ee.
    + pose proof (encodeURIComponent_safe _ e Ee) as Hs.
      pose proof (proj1 Hw (ex_intro _ e eq_refl)) as Ht.
      split; [|split; [|split]].
      * intros r [= <-]. split; [reflexivity|]. exists text, e.
        repeat split; try assumption;
          apply (uri_safe_excludes e _ Hs); reflexivity.
      * split; [intros [=] | intros Hq; rewrite Hq in Ea; discriminate].
      * split; [intros [=] | intros (t & [= <-] & Hf); congruence].
      * intros t _ _. eauto.
    + pose proof (encodeURIComponent_error _ _ Ee) as ->.
      assert (Hf : well_formed text = false).
      { destruct (well_formed text) eqn:Et; [|reflexivity].
        destruct (proj2 Hw eq_refl) as [e He]. discriminate. }
      split; [|split; [|split]].
      * intros r [=].
      * split; [intros [=] | intros Hq; rewrite Hq in Ea; discriminate].
      * split; [intros _; exists text; split; [reflexivity | exact Hf] | reflexivity].
      * intros t [= <-] Ht. congruence.
  - destruct (address_text_error _ _ Ea) as [-> Hq].
    split; [|split; [|split]].
    + intros r [=].
    + split; [intros _; exact Hq | reflexivity].
    + split; [intros [=] | intros (t & [=] & _)].
    + intros t [=].
Qed.

Lemma map_page_is_safe_witness :
  let req := {| header_x_forwarded_proto := None; protocol := js "http";
                header_host := None;
                body := None; query_region := js_undefined;
                query_address :=
                  JsString (QUOTE ++ js "><script>alert(1)</script>") |} in
  let page := {| status := 200;
                 payload := Html (map_page_head
                                  ++ js "%22%3E%3Cscript%3Ealert(1)%3C%2Fscript%3E"
                                  ++ map_page_tail) |} in
  let bad := {| header_x_forwarded_proto := None; protocol := js "http";
                header_host := None;
                body := None; query_region := js_undefined;
                query_address := JsOther true None |} in
  get_map req = Returned page /\ status page = 200
  /\ get_map bad = Threw TypeError.
Proof.
  intros req page bad.
  assert (H : get_map req = Returned page) by reflexivity.
  split; [exact H|]. split.
  - exact (proj1 (proj1 (map_page_is_safe req) page H)).
  - exact (proj2 (proj1 (proj2 (map_page_is_safe bad))) eq_refl).
Defined.

(** ** [/nearest] *)

(** The address of SAMTEK as [encodeURIComponent] returns it. *)
Definition SAMTEK_destination : jsstring :=
  js "Nueva%20Tajamar%20481%2C%20Torre%20Sur%2C%20Oficina%201601.%20Las%20Condes".

(** The answer of both [/nearest] handlers when SAMTEK is the match. *)
Definition found_response (env : environment) (req : request) : response :=
  {| status := 200;
     payload := CentersJson
       [ {| center_name := name SAMTEK;
            center_address := address SAMTEK;
            center_products := products SAMTEK;
            center_imageUrl :=
              Some (getBaseUrl env req ++ js "/images/samtek.png");
            center_mapLink :=
              js "https://www.google.com/maps/dir/?api=1&destination="
              ++ SAMTEK_destination;
            center_addressLink :=
              js "https://www.google.com/maps/search/?api=1&query="
              ++ SAMTEK_destination;
            center_embedUrl :=
              js "https://maps.google.com/maps?q=" ++ SAMTEK_destination
              ++ js "&output=embed" |} ] |}.

Lemma buildImageUrl_unreserved env req fileName :
  fileName <> [] -> forallb uri_unreserved fileName = true ->
  buildImageUrl env req fileName
  = Returned (Some (getBaseUrl env req ++ js "/images/" ++ fileName)).
Proof.
  intros Hne Hu. destruct fileName as [|c f]; [congruence|].
  rewrite buildImageUrl_cons, (encodeURIComponent_unreserved (c :: f) Hu).
  reflexivity.
Qed.

Lemma centers_response_SAMTEK env req :
  centers_response env req SAMTEK = Returned (found_response env req).
Proof.
  unfold centers_response.
  rewrite (buildImageUrl_unreserved env req (image SAMTEK))
    by (discriminate || reflexivity).
  assert (He : encodeURIComponent (address SAMTEK) = Returned SAMTEK_destination)
    by (vm_compute; reflexivity).
  rewrite He. reflexivity.
Qed.

Section Nearest.
Context `{U : Unicode}.

Lemma findByRegionFlexible_empty : findByRegionFlexible [] = Normal None.
Proof. rewrite findByRegionFlexible_latin1 by reflexivity. vm_compute. reflexivity. Qed.

Lemma findByRegionFlexible_cases s :
  findByRegionFlexible s = Normal None
  \/ findByRegionFlexible s = Normal (Some SAMTEK).
Proof.
  rewrite findByRegionFlexible_formula. destruct (_ || _); auto.
Qed.

(** What a [/nearest] handler does with the region it reads, [v]. *)
Definition answers (v : js_value) (result : outcome response)
    (invalid : response) (not_found : jsstring -> response)
    (found : response) : Prop :=
  (result = Returned invalid /\ forall s, v = JsString s -> s = [])
  \/ (exists s, result = Returned (not_found s) /\ v = JsString s /\ s <> []
                /\ findByRegionFlexible s = Normal None)
  \/ (exists s, result = Returned found /\ v = JsString s /\ s <> []
                /\ findByRegionFlexible s = Normal (Some SAMTEK)).

Lemma nearest_answers v invalid not_found env req :
  answers v
    (match v with
     | JsString ((_ :: _) as rawRegion) =>
         m ← of_completion (findByRegionFlexible rawRegion);
         match m with
         | None => Returned (not_found rawRegion)
         | Some m => centers_response env req m
         end
     | _ => Returned invalid
     end)
    invalid not_found (found_response env req).
Proof.
  destruct v as [[|c s]|t x].
  - left. split; [reflexivity|]. intros s [= <-]. reflexivity.
  - destruct (findByRegionFlexible_cases (c :: s)) as [E|E]; rewrite E;
      unfold of_completion; cbn [mbind outcome_bind].
    + right. left. exists (c :: s). repeat split; [discriminate | exact E].
    + right. right. exists (c :: s). rewrite centers_response_SAMTEK.
      repeat split; [discriminate | exact E].
  - left. split; [reflexivity|]. intros s [=].
Qed.

End Nearest.

(** X11.  [POST /nearest] and [GET /nearest] never throw and give one of
    three answers: 422 when the region is missing, no string or the empty
    string, so that the empty string never reaches the matcher; 404, with
    the region quoted in the message, when it is a string that
    [findByRegionFlexible] does not resolve; 200 with the one center of
    SAMTEK, its image under [/images/] of the base URL and its address
    percent-encoded in the three links, when it is resolved. *)
Theorem nearest_handlers_answer `{U : Unicode} (env : environment) (req : request) :
  answers (body_region req) (post_nearest env req)
          post_invalid post_not_found (found_response env req)
  /\ answers (query_region req) (get_nearest env req)
             get_invalid get_not_found (found_response env req)
  /\ status post_invalid = 422 /\ status get_invalid = 422
  /\ (forall s, status (post_not_found s) = 404 /\ status (get_not_found s) = 404)
  /\ status (found_response env req) = 200.
Proof.
  split; [apply nearest_answers|]. split; [apply nearest_answers|].
  repeat split.
Qed.

Lemma nearest_handlers_answer_witness :
  let env := {| BASE_URL := None; PORT := None |} in
  let req := {| header_x_forwarded_proto := None; protocol := js "http";
                header_host := Some (js "localhost:3000");
                body := Some (JsString (js "   "));
                query_region := JsString (js "Santiago");
                query_address := js_undefined |} in
  @post_nearest runtime_model env req = Returned (post_not_found (js "   "))
  /\ @get_nearest runtime_model env req = Returned (found_response env req).
Proof.
  intros env req.
  destruct (@nearest_handlers_answer runtime_model env req) as (Hp & Hg & _).
  split.
  - destruct Hp as [[_ H]|[(s & Hr & Hs & _)|(s & _ & Hs & _ & Hf)]].
    + specialize (H _ eq_refl). discriminate.
    + injection Hs as <-. exact Hr.
    + injection Hs as <-. vm_compute in Hf. discriminate.
  - destruct Hg as [[_ H]|[(s & _ & Hs & _ & Hf)|(s & Hr & _)]].
    + specialize (H _ eq_refl). discriminate.
    + injection Hs as <-. vm_compute in Hf. discriminate.
    + exact Hr.
Defined.

(** ** [POST /nearest] of [src/index.js] against the flexible one *)

Module BasicAppFacts.

(** The address of the catalog of [src/index.js], encoded. *)
Definition destination : jsstring :=
  js "Nueva%20Tajamar%20481%2C%20Torre%20Sur%2C%20Oficina%201601.%20Las%20Condes%20(265.2km)".

(** The answer of [src/index.js] for its one center. *)
Definition found (env : environment) : response :=
  {| status := 200;
     payload := CentersJson
       [ {| center_name := BasicApp.name (BasicApp.SAMTEK env);
            center_address := BasicApp.address (BasicApp.SAMTEK env);
            center_products := BasicApp.products (BasicApp.SAMTEK env);
            center_imageUrl := Some (BasicApp.base_url env ++ js "/images/samtek.png");
            center_mapLink :=
              js "https://www.google.com/maps/dir/?api=1&destination=" ++ destination;
            center_addressLink :=
              js "https://www.google.com/maps/search/?api=1&query=" ++ destination;
            center_embedUrl :=
              js "https://maps.google.com/maps?q=" ++ destination
              ++ js "&output=embed" |} ] |}.

Section Facts.
Context `{U : Unicode}.

Lemma basic_normalize_latin1 s :
  is_latin1 s = true ->
  Basic.normalize s
  = trim (strip_marks (flat_map decompose_latin1 (map lower_latin1 s))).
Proof.
  intros Hs. unfold Basic.normalize.
  rewrite (toLowerCase_latin1 s Hs), (nfd_latin1 _ (lower_keeps_latin1 s Hs)).
  reflexivity.
Qed.

Lemma empty_is_not_the_key :
  Basic.normalize (region SAMTEK) <> Basic.normalize [].
Proof.
  rewrite !basic_normalize_latin1 by reflexivity. vm_compute. discriminate.
Qed.

Lemma post_nearest_eq env req :
  BasicApp.post_nearest env req =
  match BasicApp.region_input (body req) with
  | Threw e => Threw e
  | Returned x =>
      if bool_decide (Basic.normalize (region SAMTEK) = x)
      then Returned (found env) else Returned BasicApp.not_found
  end.
Proof.
  unfold BasicApp.post_nearest.
  destruct (BasicApp.region_input (body req)) as [x|e];
    cbn [mbind outcome_bind]; [|reflexivity].
  unfold BasicApp.serviceCenters. cbn [find].
  change (BasicApp.region (BasicApp.SAMTEK env)) with (region SAMTEK).
  destruct (bool_decide _); [|reflexivity].
  assert (He : encodeURIComponent (BasicApp.address (BasicApp.SAMTEK env))
               = Returned destination) by (vm_compute; reflexivity).
  rewrite He. reflexivity.
Qed.

Lemma exact_resolves s :
  normalize s = normalize (region SAMTEK) ->
  findByRegionFlexible s = Normal (Some SAMTEK).
Proof.
  intros E. unfold findByRegionFlexible, serviceCenters. cbn [find].
  rewrite bool_decide_eq_true_2 by (symmetry; exact E). reflexivity.
Qed.

End Facts.
End BasicAppFacts.

(** X12.  Moving from [src/index.js] to the flexible application loses no
    accepted request.  Where [src/index.js] answers 200, the region is a
    string with the key of SAMTEK under its [normalize], and the flexible
    [POST /nearest] answers 200 as well.  [src/index.js] throws, a
    [TypeError], exactly when the body of the request is undefined or its
    region is a truthy value that is no string; the flexible one answers
    422 there.  With a body whose region is missing, falsy or the empty
    string, [src/index.js] answers 404 and the flexible one 422. *)
Theorem flexible_accepts_what_basic_accepts `{U : Unicode}
    (env : environment) (req : request) :
  (forall r,
     BasicApp.post_nearest env req = Returned r -> status r = 200 ->
     exists s, body req = Some (JsString s)
               /\ Basic.normalize s = Basic.normalize (region SAMTEK)
               /\ post_nearest env req = Returned (found_response env req))
  /\ (forall err,
        BasicApp.post_nearest env req = Threw err ->
        err = TypeError
        /\ (body req = None \/ exists text, body req = Some (JsOther true text))
        /\ post_nearest env req = Returned post_invalid)
  /\ (body req = None \/ (exists text, body req = Some (JsOther true text)) ->
      BasicApp.post_nearest env req = Threw TypeError)
  /\ (forall v,
        body req = Some v ->
        (forall s, v = JsString s -> s = []) ->
        (forall text, v <> JsOther true text) ->
        BasicApp.post_nearest env req = Returned BasicApp.not_found
        /\ post_nearest env req = Returned post_invalid).
Proof.
  rewrite (BasicAppFacts.post_nearest_eq env req).
  pose proof BasicAppFacts.empty_is_not_the_key as Hne.
  unfold post_nearest, body_region.
  destruct (body req) as [[s|[|] text]|]; cbn [BasicApp.region_input].
  - destruct (decide (Basic.normalize (region SAMTEK) = Basic.normalize s))
      as [E|E].
    + rewrite bool_decide_eq_true_2 by exact E.
      split; [|split; [|split]].
      * intros r _ _. exists s. split; [reflexivity|]. split; [congruence|].
        destruct s as [|c s]; [contradiction|].
        rewrite (BasicAppFacts.exact_resolves (c :: s)).
        -- unfold of_completion. cbn [mbind outcome_bind].
           apply centers_response_SAMTEK.
        -- rewrite (normalize_after_basic (c :: s)),
             (normalize_after_basic (region SAMTEK)), E. reflexivity.
      * intros err [=].
      * intros [[=] | [text [=]]].
      * intros v [= <-] Hs _. specialize (Hs s eq_refl). subst s. contradiction.
    + rewrite bool_decide_eq_false_2 by exact E.
      split; [|split; [|split]].
      * intros r [= <-] Hst. discriminate.
      * intros err [=].
      * intros [[=] | [text [=]]].
      * intros v [= <-] Hs _. specialize (Hs s eq_refl). subst s.
        split; reflexivity.
  - split; [|split; [|split]].
    + intros r [=].
    + intros err [= <-]. split; [reflexivity|]. split; [eauto | reflexivity].
    + intros _. reflexivity.
    + intros v [= <-] _ Hno. destruct (Hno text eq_refl).
  - rewrite bool_decide_eq_false_2 by exact Hne.
    split; [|split; [|split]].
    + intros r [= <-] Hst. discriminate.
    + intros err [=].
    + intros [[=] | [t [=]]].
    + intros v _ _ _. split; reflexivity.
  - split; [|split; [|split]].
    + intros r [=].
    + intros err [= <-]. split; [reflexivity|]. split; [left | ]; reflexivity.
    + intros _. reflexivity.
    + intros v [=].
Qed.

Lemma flexible_accepts_what_basic_accepts_witness :
  let env := {| BASE_URL := None; PORT := None |} in
  let req := {| header_x_forwarded_proto := None; protocol := js "http";
                header_host := Some (js "localhost:3000");
                body :=
                  Some (JsString (js " REGI" ++ [0xD3]
                                  ++ js "N METROPOLITANA DE SANTIAGO "));
                query_region := js_undefined;
                query_address := js_undefined |} in
  let no_body := {| header_x_forwarded_proto := None; protocol := js "http";
                    header_host := Some (js "localhost:3000");
                    body := None;
                    query_region := js_undefined;
                    query_address := js_undefined |} in
  @BasicApp.post_nearest runtime_model env req = Returned (BasicAppFacts.found env)
  /\ status (BasicAppFacts.found env) = 200
  /\ @post_nearest runtime_model env req = Returned (found_response env req)
  /\ @BasicApp.post_nearest runtime_model env no_body = Threw TypeError
  /\ @post_nearest runtime_model env no_body = Returned post_invalid.
Proof.
  intros env req no_body.
  assert (H : @BasicApp.post_nearest runtime_model env req
              = Returned (BasicAppFacts.found env)) by (vm_compute; reflexivity).
  split; [exact H|]. split; [reflexivity|]. split.
  - destruct (proj1 (@flexible_accepts_what_basic_accepts runtime_model env req)
                _ H eq_refl) as (s & _ & _ & Hf).
    exact Hf.
  - pose proof (proj1 (proj2 (proj2
        (@flexible_accepts_what_basic_accepts runtime_model env no_body)))
        (or_introl eq_refl)) as Ht.
    split; [exact Ht|].
    exact (proj2 (proj2 (proj1 (proj2
        (@flexible_accepts_what_basic_accepts runtime_model env no_body))
        TypeError Ht))).
Defined.

(** * Further properties of the matcher, continued *)

(** X13.  Typing errors are tolerated up to two edits: an input whose
    normalized form is within two deletions, insertions or replacements of
    the key of SAMTEK is resolved, whatever its length; and an input that is
    resolved without containing the key or being contained in it is within
    two edits of the key. *)
Theorem typos_are_tolerated `{U : Unicode} (input : jsstring) :
  (forall n, edits n (normalize input) (normalize (region SAMTEK)) ->
             (n <= 2)%nat ->
             findByRegionFlexible input = Normal (Some SAMTEK))
  /\ (findByRegionFlexible input = Normal (Some SAMTEK) ->
      substring_match input (region SAMTEK) = false ->
      exists n, (n <= 2)%nat
                /\ edits n (normalize input) (normalize (region SAMTEK))).
Proof.
  rewrite findByRegionFlexible_formula. unfold fuzzy_match. split.
  - intros n He Hn.
    assert (Hl : (levenshtein (normalize input) (normalize (region SAMTEK))
                  <= n)%nat).
    { apply levenshtein_le_edits.
      rewrite !(normalize_fixed (normalize _)) by apply normalize_canonical.
      exact He. }
    replace (_ <=? 2)%nat with true by (symmetry; apply Nat.leb_le; lia).
    rewrite orb_true_r. reflexivity.
  - intros Hr Hs. rewrite Hs, andb_false_r in Hr. cbn [orb] in Hr.
    destruct (Nat.leb_spec
                (levenshtein (normalize input) (normalize (region SAMTEK))) 2)
      as [Hle|_]; [|discriminate].
    exists (levenshtein (normalize input) (normalize (region SAMTEK))).
    split; [exact Hle|].
    pose proof (levenshtein_edits (normalize input) (normalize (region SAMTEK)))
      as He.
    rewrite !(normalize_fixed (normalize _)) in He by apply normalize_canonical.
    exact He.
Qed.

Lemma typos_are_tolerated_witness :
  let input := js "rejion metropolitana de santiag" in
  edits 2 (@normalize runtime_model input)
          (@normalize runtime_model (region SAMTEK))
  /\ @findByRegionFlexible runtime_model input = Normal (Some SAMTEK).
Proof.
  intros input.
  assert (H : edits 2 (@normalize runtime_model input)
                      (@normalize runtime_model (region SAMTEK))).
  { vm_compute. do 2 apply edits_keep. apply edits_replace.
    do 28 apply edits_keep. apply edits_insert. apply edits_nil. }
  split; [exact H|].
  apply (proj1 (@typos_are_tolerated runtime_model input) 2%nat H). lia.
Defined.

(** X14.  The table of [levenshtein] keeps its shape, and when the loops
    end every cell [dp[i][j]] holds the least number of edits between the
    first [i] code units of the one string and the first [j] of the
    other. *)
Theorem table_holds_prefix_distances (a b : jsstring) (i j : nat) :
  (i <= length a)%nat -> (j <= length b)%nat ->
  shaped (length a) (length b) (fill_table a b)
  /\ edits (cell (fill_table a b) i j) (take i a) (take j b)
  /\ (forall n, edits n (take i a) (take j b) ->
                (cell (fill_table a b) i j <= n)%nat).
Proof.
  intros Hi Hj. destruct (fill_table_filled a b) as [Hs Hc].
  split; [exact Hs|].
  rewrite (Hc i j Hi Hj) by lia.
  rewrite (lev_lev_front a b i j Hi Hj). split.
  - apply edits_rev_iff, edits_lev_front.
  - intros n He. apply lev_front_least, edits_rev, He.
Qed.

Lemma table_holds_prefix_distances_witness :
  (3 <= length (js "kitten"))%nat /\ (4 <= length (js "sitting"))%nat
  /\ edits (cell (fill_table (js "kitten") (js "sitting")) 3 4)
           (take 3 (js "kitten")) (take 4 (js "sitting")).
Proof.
  assert (H1 : (3 <= length (js "kitten"))%nat) by (vm_compute; lia).
  assert (H2 : (4 <= length (js "sitting"))%nat) by (vm_compute; lia).
  split; [exact H1|]. split; [exact H2|].
  exact (proj1 (proj2 (table_holds_prefix_distances
                         (js "kitten") (js "sitting") 3 4 H1 H2))).
Defined.

(** X15.  The aliases listed in [REGION_ALIASES] are never looked up, yet
    all of them but ["rm"] are resolved to SAMTEK by the substring or the
    fuzzy clause: ["rm"] is the one alias that the table was needed for. *)
Theorem registered_aliases_resolve `{U : Unicode} (a : jsstring) :
  In a SAMTEK_aliases ->
  (a <> js "rm" -> findByRegionFlexible a = Normal (Some SAMTEK))
  /\ (a = js "rm" -> findByRegionFlexible a = Normal None).
Proof.
  intros Ha.
  assert (Hl : is_latin1 a = true).
  { revert a Ha. apply forallb_forall. vm_compute. reflexivity. }
  rewrite (findByRegionFlexible_latin1 a Hl). clear Hl.
  unfold SAMTEK_aliases in Ha. cbn [In] in Ha.
  repeat (destruct Ha as [<-|Ha]); try contradiction;
    (split; [intros Hne | intros Heq]);
    first [ vm_compute; reflexivity
          | exfalso; apply Hne; reflexivity
          | exfalso; vm_compute in Heq; discriminate ].
Qed.

Lemma registered_aliases_resolve_witness :
  In (js "santiago") SAMTEK_aliases
  /\ js "santiago" <> js "rm"
  /\ @findByRegionFlexible runtime_model (js "santiago") = Normal (Some SAMTEK).
Proof.
  assert (H1 : In (js "santiago") SAMTEK_aliases)
    by (do 3 right; left; reflexivity).
  assert (H2 : js "santiago" <> js "rm") by (vm_compute; discriminate).
  split; [exact H1|]. split; [exact H2|].
  exact (proj1 (@registered_aliases_resolve runtime_model (js "santiago") H1) H2).
Defined.
